(** * libsql-studio-cli: the relay core, embedded and verified

    The development follows the two transports of the repository:

    - [Studio]     the HTTP variant, [src/studio.ts]
                   ([convertSqliteType], [transformRawResult], the
                   [POST /query] callback of [serve]);
    - [Connection] the socket variant, [src/connection.ts]
                   ([getValueType], class [MessageHandler]).

    Module [Js] holds the fragment of the JavaScript runtime both files
    lean on: values, thrown errors, property reads, [JSON.stringify] and
    strings; [Libsql] is the engine client as the code calls it. *)

From Stdlib Require Import SpecFloat Ascii String.
From stdpp Require Import base option list strings pretty gmap.

Set Warnings "-register-all".
Local Open Scope string_scope.

(* ===================================================================== *)
(** * The JavaScript fragment                                              *)
(* ===================================================================== *)

Module Js.

(** A JS [number] is an IEEE-754 binary64. *)
Definition number : Type := spec_float.

Definition prec : Z := 53.
Definition emax : Z := 1024.

(** The binary64 nearest to an integer, ties to even: what an integer
    literal denotes, and what [Number(b)] returns for a bigint [b]. *)
Definition number_of_Z (z : Z) : number :=
  binary_normalize prec emax z 0 false.

Definition Number_of_bigint (b : Z) : number := number_of_Z b.

(** [b.toString()] for a bigint [b]: its decimal digits. *)
Definition bigint_toString (b : Z) : string := pretty b.

(** Runtime values.  [JBuffer] is an [ArrayBuffer] (how the engine hands
    out a blob); objects keep their own enumerable properties in
    insertion order. *)
Inductive jsval : Type :=
  | JUndefined
  | JNull
  | JBool (b : bool)
  | JNum (x : number)
  | JBigInt (z : Z)
  | JStr (s : string)
  | JBuffer (bytes : list Z)
  | JArr (items : list jsval)
  | JObj (props : list (string * jsval)).

Definition props : Type := list (string * jsval).

(** [typeof v], for the cases the code distinguishes. *)
Definition typeof (v : jsval) : string :=
  match v with
  | JUndefined => "undefined"
  | JNull => "object"
  | JBool _ => "boolean"
  | JNum _ => "number"
  | JBigInt _ => "bigint"
  | JStr _ => "string"
  | JBuffer _ | JArr _ | JObj _ => "object"
  end.

(** Property tables. [lookup_prop] is [o[k]] on an ordinary object: the
    stored value, [undefined] when the key is absent. *)
Fixpoint assoc (k : string) (o : props) : option jsval :=
  match o with
  | [] => None
  | (k', v) :: o' => if decide (k' = k) then Some v else assoc k o'
  end.

Definition lookup_prop (o : props) (k : string) : jsval :=
  default JUndefined (assoc k o).

(** [o[k] = v]: overwrite in place, or append a new property. *)
Fixpoint set_prop (k : string) (v : jsval) (o : props) : props :=
  match o with
  | [] => [(k, v)]
  | (k', v') :: o' =>
      if decide (k' = k) then (k, v) :: o' else (k', v') :: set_prop k v o'
  end.

(** Thrown values.  Everything the engine and the runtime throw is an
    [Error] instance: a [name], a [message], a [stack] and whatever own
    properties the thrower attached ([code], [rawCode], [cause], ...). *)
Record JsError : Type := mkError {
  err_name : string;
  err_message : string;
  err_stack : string;
  err_own : props;
}.

(** [e.k] on an error object. *)
Definition err_get (e : JsError) (k : string) : jsval :=
  if decide (k = "message") then JStr (err_message e)
  else if decide (k = "name") then JStr (err_name e)
  else if decide (k = "stack") then JStr (err_stack e)
  else lookup_prop (err_own e) k.

Definition TypeError (msg : string) : JsError :=
  {| err_name := "TypeError"; err_message := msg;
     err_stack := "TypeError: " +:+ msg; err_own := [] |}.

(** Outcome of evaluating something that may throw; for an [async]
    function, [Normal] is a fulfilled and [Throw] a rejected promise. *)
Inductive completion (A : Type) : Type :=
  | Normal (a : A)
  | Throw (e : JsError).
Arguments Normal {A} a.
Arguments Throw {A} e.

#[global] Instance completion_ret : MRet completion := fun _ a => Normal a.
#[global] Instance completion_bind : MBind completion := fun _ _ k c =>
  match c with
  | Normal a => k a
  | Throw e => Throw e
  end.

(** [v.k]: reading a property of [undefined] or [null] throws; an object
    answers from its table; for the keys the code reads ([type], [id]) any
    other value answers [undefined]. *)
Definition get (v : jsval) (k : string) : completion jsval :=
  match v with
  | JUndefined =>
      Throw (TypeError ("Cannot read properties of undefined (reading '"
                        +:+ k +:+ "')"))
  | JNull =>
      Throw (TypeError ("Cannot read properties of null (reading '"
                        +:+ k +:+ "')"))
  | JObj o => Normal (lookup_prop o k)
  | _ => Normal JUndefined
  end.

(** ** JSON

    [JSON.stringify] is modelled up to the text it prints: the result is
    the tree a peer gets back from [JSON.parse]. *)
Inductive json : Type :=
  | JsonNull
  | JsonBool (b : bool)
  | JsonNum (x : number)
  | JsonStr (s : string)
  | JsonArr (items : list json)
  | JsonObj (fields : list (string * json)).

(** A number in JSON: [NaN] and the infinities print as [null], and
    either zero prints as [0]. *)
Definition json_of_number (x : number) : json :=
  match x with
  | S754_zero _ => JsonNum (S754_zero false)
  | S754_finite _ _ _ => JsonNum x
  | S754_infinity _ | S754_nan => JsonNull
  end.

(** [SerializeJSONProperty]: [None] stands for "undefined", which drops
    the property from an object and prints [null] inside an array; a
    bigint has no JSON form and throws. *)
Fixpoint serialize (v : jsval) : completion (option json) :=
  match v with
  | JUndefined => Normal None
  | JNull => Normal (Some JsonNull)
  | JBool b => Normal (Some (JsonBool b))
  | JNum x => Normal (Some (json_of_number x))
  | JBigInt _ => Throw (TypeError "Do not know how to serialize a BigInt")
  | JStr s => Normal (Some (JsonStr s))
  | JBuffer _ => Normal (Some (JsonObj []))
  | JArr items =>
      let fix elems (l : list jsval) : completion (list json) :=
        match l with
        | [] => Normal []
        | x :: l' =>
            j ← serialize x;
            js ← elems l';
            Normal (default JsonNull j :: js)
        end in
      js ← elems items; Normal (Some (JsonArr js))
  | JObj o =>
      let fix fields (l : props) : completion (list (string * json)) :=
        match l with
        | [] => Normal []
        | (k, x) :: l' =>
            j ← serialize x;
            fs ← fields l';
            Normal (match j with Some j' => (k, j') :: fs | None => fs end)
        end in
      fs ← fields o; Normal (Some (JsonObj fs))
  end.

(** [JSON.stringify(v)] for a [v] that is an object literal. *)
Definition JSON_stringify (v : jsval) : completion json :=
  j ← serialize v; Normal (default JsonNull j).

(** The two loops of [serialize], by name. *)
Fixpoint serialize_elems (l : list jsval) : completion (list json) :=
  match l with
  | [] => Normal []
  | x :: l' =>
      j ← serialize x;
      js ← serialize_elems l';
      Normal (default JsonNull j :: js)
  end.

Fixpoint serialize_fields (l : props) : completion (list (string * json)) :=
  match l with
  | [] => Normal []
  | (k, x) :: l' =>
      j ← serialize x;
      fs ← serialize_fields l';
      Normal (match j with Some j' => (k, j') :: fs | None => fs end)
  end.

(** Field of a JSON object, [None] when the key is not there. *)
Fixpoint json_assoc (k : string) (fs : list (string * json)) : option json :=
  match fs with
  | [] => None
  | (k', v) :: fs' => if decide (k' = k) then Some v else json_assoc k fs'
  end.

Definition field (j : json) (k : string) : option json :=
  match j with
  | JsonObj fs => json_assoc k fs
  | _ => None
  end.

(** [j.k1.k2...], [None] as soon as a key is missing. *)
Fixpoint path (j : json) (ks : list string) : option json :=
  match ks with
  | [] => Some j
  | k :: ks' =>
      match field j k with
      | Some j' => path j' ks'
      | None => None
      end
  end.

(** ** Strings *)

(** [s.toUpperCase()] on 8-bit characters: [a]..[z] go to [A]..[Z]. *)
Definition upper_char (c : ascii) : ascii :=
  let n := Ascii.nat_of_ascii c in
  if (97 <=? n)%nat && (n <=? 122)%nat then Ascii.ascii_of_nat (n - 32) else c.

Fixpoint toUpperCase (s : string) : string :=
  match s with
  | EmptyString => EmptyString
  | String c s' => String (upper_char c) (toUpperCase s')
  end.

(** [s.startsWith(p)] and [s.includes(p)]. *)
Fixpoint startsWith (s p : string) {struct p} : bool :=
  match p with
  | EmptyString => true
  | String a p' =>
      match s with
      | EmptyString => false
      | String b s' => if decide (a = b) then startsWith s' p' else false
      end
  end.

Fixpoint includes (s p : string) : bool :=
  startsWith s p ||
  match s with
  | EmptyString => false
  | String _ s' => includes s' p
  end.

(** What [includes] decides: [p] occurs somewhere inside [s]. *)
Definition occurs_in (p s : string) : Prop :=
  exists pre post : string, s = pre +:+ p +:+ post.

End Js.

(* ===================================================================== *)
(** * The engine, as the code sees it                                      *)
(* ===================================================================== *)

Module Libsql.
Import Js.

(** A row answers both [row[idx]] and [row[col]]: it is an object whose
    keys are the decimal positions and the column names. *)
Definition Row : Type := props.

Definition row_at (r : Row) (idx : nat) : jsval := lookup_prop r (pretty idx).
Definition row_named (r : Row) (col : string) : jsval := lookup_prop r col.

Record ResultSet : Type := mkResultSet {
  columns : list string;
  columnTypes : list string;
  rows : list Row;
  rowsAffected : number;
  lastInsertRowid : option Z;          (* bigint | undefined *)
}.

(** What [execute] and [batch] accept: SQL text, or SQL with positional
    arguments. *)
Inductive InStatement : Type :=
  | StmtText (sql : string)
  | StmtArgs (sql : string) (args : list jsval).

(** The client handle.  The database behind it is a state [DB] that each
    call may change; a call either yields its result or throws. *)
Record Client (DB : Type) : Type := mkClient {
  execute : DB -> InStatement -> DB * completion ResultSet;
  batch : DB -> list InStatement -> DB * completion (list ResultSet);
  (* how many turns of the event loop pass before the promise returned
     by [execute] settles *)
  latency : DB -> InStatement -> nat;
}.
Arguments mkClient {DB} _ _ _.
Arguments execute {DB} _ _ _.
Arguments batch {DB} _ _ _.
Arguments latency {DB} _ _ _.

End Libsql.

(* ===================================================================== *)
(** * HTTP variant: studio.ts                                              *)
(* ===================================================================== *)

Module Studio.
Import Js Libsql.

Inductive ColumnType : Type := TEXT | INTEGER | REAL | BLOB.

(** The numeric values of the enum. *)
Definition ColumnType_value (t : ColumnType) : Z :=
  match t with TEXT => 1 | INTEGER => 2 | REAL => 3 | BLOB => 4 end.

Definition convertSqliteType (type : option string) : ColumnType :=
  match type with
  | None => BLOB
  | Some type =>
      let type := toUpperCase type in
      if includes type "CHAR" then TEXT
      else if includes type "TEXT" then TEXT
      else if includes type "CLOB" then TEXT
      else if includes type "STRING" then TEXT
      else if includes type "INT" then INTEGER
      else if includes type "BLOB" then BLOB
      else if includes type "REAL" || includes type "DOUBLE"
              || includes type "FLOAT" then REAL
      else TEXT
  end.

Record ResultHeader : Type := mkHeader {
  name : string;
  displayName : string;
  originalType : option string;
  type : ColumnType;
}.

Record Stat : Type := mkStat {
  stat_rowsAffected : number;
  stat_rowsRead : option number;
  stat_rowsWritten : option number;
  stat_queryDurationMs : option number;
}.

Record Result : Type := mkResult {
  res_rows : list props;
  res_headers : list ResultHeader;
  res_stat : Stat;
  res_lastInsertRowid : option number;
}.

(** The template literal [`__${colName}_${i}`]. *)
Definition renamed (colName : string) (i : nat) : string :=
  "__" +:+ colName +:+ "_" +:+ pretty i.

(** The [for (let i = 0; i < 20; i++)] loop of the header callback, with
    [n] iterations left, the counter at [i] and the candidate so far. *)
Fixpoint renameLoop (headerSet : gset string) (colName : string)
    (n i : nat) (renameColName : string) : string :=
  match n with
  | O => renameColName
  | S n' =>
      if decide (renameColName ∈ headerSet) then
        renameLoop headerSet colName n' (S i) (renamed colName i)
      else renameColName
  end.

Definition resolveName (headerSet : gset string) (colName : string) : string :=
  renameLoop headerSet colName 20 0 colName.

(** [raw.columns.map((colName, colIdx) => ...)]: the callback runs left to
    right and threads the [headerSet] it mutates. *)
Fixpoint mapHeaders (columnTypes : list string) (headerSet : gset string)
    (colIdx : nat) (cols : list string) : list ResultHeader :=
  match cols with
  | [] => []
  | colName :: cols' =>
      let colType := columnTypes !! colIdx in
      let renameColName := resolveName headerSet colName in
      {| name := renameColName;
         displayName := colName;
         originalType := colType;
         type := convertSqliteType colType |}
      :: mapHeaders columnTypes ({[renameColName]} ∪ headerSet) (S colIdx) cols'
  end.

(** [headers.reduce((a, b, idx) => { a[b.name] = r[idx]; return a }, {})] *)
Fixpoint reduceRow (r : Row) (idx : nat) (headers : list ResultHeader)
    (a : props) : props :=
  match headers with
  | [] => a
  | b :: headers' => reduceRow r (S idx) headers' (set_prop (name b) (row_at r idx) a)
  end.

Definition transformRawResult (raw : ResultSet) : Result :=
  let headers := mapHeaders (columnTypes raw) ∅ 0 (columns raw) in
  let rows := map (fun r => reduceRow r 0 headers []) (rows raw) in
  {| res_rows := rows;
     res_stat := {| stat_rowsAffected := rowsAffected raw;
                    stat_rowsRead := None;
                    stat_rowsWritten := None;
                    stat_queryDurationMs := Some (number_of_Z 0) |};
     res_headers := headers;
     res_lastInsertRowid :=
       match lastInsertRowid raw with
       | None => None
       | Some b => Some (Number_of_bigint b)
       end |}.

(** The schema keys of a result: the [name] of each header. *)
Definition schemaKeys (raw : ResultSet) : list string :=
  map name (res_headers (transformRawResult raw)).

(** ** The [POST /query] endpoint *)

(** The request body, as the callback types it. *)
Inductive Body : Type :=
  | QueryBody (id : number) (statement : string)
  | TransactionBody (id : number) (statements : list string).

Definition body_type (b : Body) : string :=
  match b with QueryBody _ _ => "query" | TransactionBody _ _ => "transaction" end.

Definition body_id (b : Body) : number :=
  match b with QueryBody id _ | TransactionBody id _ => id end.

(** A [Result] as the object [res.json] receives. *)
Definition js_opt_number (x : option number) : jsval :=
  match x with Some n => JNum n | None => JNull end.

Definition js_header (h : ResultHeader) : jsval :=
  JObj [("name", JStr (name h));
        ("displayName", JStr (displayName h));
        ("originalType",
           match originalType h with Some t => JStr t | None => JUndefined end);
        ("type", JNum (number_of_Z (ColumnType_value (type h))))].

Definition js_stat (s : Stat) : jsval :=
  JObj [("rowsAffected", JNum (stat_rowsAffected s));
        ("rowsRead", js_opt_number (stat_rowsRead s));
        ("rowsWritten", js_opt_number (stat_rowsWritten s));
        ("queryDurationMs", js_opt_number (stat_queryDurationMs s))].

Definition js_result (r : Result) : jsval :=
  JObj [("rows", JArr (map JObj (res_rows r)));
        ("stat", js_stat (res_stat r));
        ("headers", JArr (map js_header (res_headers r)));
        ("lastInsertRowid",
           match res_lastInsertRowid r with Some n => JNum n | None => JUndefined end)].

(** [res.json(v)]: the body sent is [JSON.stringify(v)]. *)
Definition res_json (v : jsval) : completion json := JSON_stringify v.

(** The [async (req, res) => ...] callback of [app.post("/query")].
    [Normal j] is the JSON body the endpoint answers with; [Throw e] is
    the callback's promise rejecting, with nothing sent. *)
Definition serve_post_query {DB} (db : Client DB) (st : DB) (body : Body)
  : DB * completion json :=
  let '(st', attempt) :=
    match body with
    | QueryBody id statement =>
        let '(st', r) := execute db st (StmtText statement) in
        (st', r ← r;
              res_json (JObj [("type", JStr (body_type body));
                              ("id", JNum (body_id body));
                              ("data", js_result (transformRawResult r))]))
    | TransactionBody id statements =>
        let '(st', r) := batch db st (map StmtText statements) in
        (st', r ← r;
              res_json (JObj [("type", JStr (body_type body));
                              ("id", JNum (body_id body));
                              ("data", JArr (map (fun x => js_result (transformRawResult x)) r))]))
    end in
  match attempt with
  | Normal j => (st', Normal j)
  | Throw e =>
      (* catch (e) *)
      (st', let data := err_get e "data" in
            ty ← get data "type";
            id ← get data "id";
            res_json (JObj [("type", ty); ("id", id);
                            ("error", err_get e "message")]))
  end.

End Studio.

(* ===================================================================== *)
(** * Socket variant: connection.ts                                        *)
(* ===================================================================== *)

Module Connection.
Import Js Libsql.

(** ** Messages *)

Record Arg : Type := mkArg { arg_type : string; arg_value : jsval }.

Record Stmt : Type := mkStmt {
  sql : string;
  args : list Arg;
  named_args : list jsval;
  want_rows : bool;
}.

Inductive RequestMessageBody : Type :=
  | ExecuteBody (stream_id : number) (stmt : Stmt)
  | OpenStreamBody (stream_id : number)
  | CloseStreamBody (stream_id : number).

Inductive Message : Type :=
  | HelloMsg (jwt : string)
  | RequestMsg (request_id : number) (request : RequestMessageBody).

Definition getValueType (value : jsval) : string :=
  if decide (typeof value = "string") then "text"
  else if decide (typeof value = "number") then "float"
  else match value with
       | JNull => "null"
       | _ => "text"
       end.

(** ** The handlers of [MessageHandler]

    A handler's effect is the list of frames it hands to [socket.send]
    and how its promise settles. *)
Definition Effect : Type := list json * completion ().

Definition send_then (frame : completion json) (k : completion ()) : Effect :=
  match frame with
  | Normal j => ([j], k)
  | Throw e => ([], Throw e)
  end.

Definition hello_ok : jsval := JObj [("type", JStr "hello_ok")].

Definition auth_failed : string := "Authentication failed: The JWT is invalid".

Definition hello_error : jsval :=
  JObj [("type", JStr "hello_error");
        ("error", JObj [("message", JStr auth_failed);
                        ("code", JStr "AUTH_JWT_INVALID")])].

Definition Error (msg : string) : JsError :=
  {| err_name := "Error"; err_message := msg;
     err_stack := "Error: " +:+ msg; err_own := [] |}.

Definition handleAuth (token : string) (jwt : string) : Effect :=
  if decide (jwt = token) then
    send_then (JSON_stringify hello_ok) (Normal ())
  else
    send_then (JSON_stringify hello_error) (Throw (Error auth_failed)).

Definition handleOpenStream (requestId : number) : Effect :=
  send_then
    (JSON_stringify
       (JObj [("type", JStr "response_ok");
              ("request_id", JNum requestId);
              ("response", JObj [("type", JStr "open_stream")])]))
    (Normal ()).

Definition handleCloseStream : Effect := ([], Normal ()).

Definition prepareResult (requestId : number) (r : ResultSet) : completion json :=
  JSON_stringify
    (JObj [("type", JStr "response_ok");
           ("request_id", JNum requestId);
           ("response",
             JObj [("type", JStr "execute");
                   ("result",
                     JObj [("cols",
                             JArr (imap (fun colIdx col =>
                                     JObj [("name", JStr col);
                                           ("decltype",
                                             match columnTypes r !! colIdx with
                                             | Some t => JStr t
                                             | None => JUndefined
                                             end)])
                                   (columns r)));
                           ("rows",
                             JArr (map (fun row =>
                                     JArr (map (fun col =>
                                             JObj [("type", JStr (getValueType (row_named row col)));
                                                   ("value", row_named row col)])
                                           (columns r)))
                                   (rows r)));
                           ("last_insert_rowid",
                             match lastInsertRowid r with
                             | None => JNull
                             | Some b => JStr (bigint_toString b)
                             end);
                           ("affected_row_count", JNum (rowsAffected r))])])]).

(** [handleExecuteRequest] in its two halves: the statement handed to
    [db.execute], and everything after the [await] (the rest of the [try]
    block and the [catch]). *)
Definition executeCall (body : Stmt) : InStatement :=
  StmtArgs (sql body) (map arg_value (args body)).

Definition executeSettled (requestId : number) (outcome : completion ResultSet)
  : Effect :=
  match r ← outcome; prepareResult requestId r with
  | Normal frame => ([frame], Normal ())
  | Throw e =>
      send_then
        (JSON_stringify
           (JObj [("type", JStr "response_error");
                  ("request_id", JNum requestId);
                  ("error", JObj [("message", err_get e "message")])]))
        (Normal ())
  end.

Definition handleExecuteRequest {DB} (db : Client DB) (st : DB)
    (requestId : number) (body : Stmt) : DB * Effect :=
  let '(st', outcome) := execute db st (executeCall body) in
  (st', executeSettled requestId outcome).

Definition handleMessage {DB} (db : Client DB) (token : string) (st : DB)
    (msg : Message) : DB * Effect :=
  match msg with
  | HelloMsg jwt => (st, handleAuth token jwt)
  | RequestMsg requestId (OpenStreamBody _) => (st, handleOpenStream requestId)
  | RequestMsg requestId (CloseStreamBody _) => (st, handleCloseStream)
  | RequestMsg requestId (ExecuteBody _ body) =>
      handleExecuteRequest db st requestId body
  end.

(** ** The dispatcher: promises and the event loop

    Promises live in a heap and are named by their position.  A reaction
    [(p, (d, msg))] records a call [p.then(handler)] made while [p] was
    pending: [d] is the promise [then] returned and [msg] the message the
    handler closure holds. *)
Inductive pstate : Type :=
  | Pending
  | Fulfilled
  | Rejected (reason : JsError).

(** What can be observed of a handler: it starts running, it settles. *)
Inductive Obs : Type :=
  | Begins (h : nat)
  | Settles (h : nat) (how : pstate).

(** An [execute] the engine has not answered yet. *)
Record Call : Type := mkCall {
  call_handler : nat;             (* promise of the suspended handler *)
  call_request : number;
  call_outcome : completion ResultSet;
  call_remaining : nat;
}.

Record World (DB : Type) : Type := mkWorld {
  w_db : DB;
  w_sent : list json;             (* frames handed to [socket.send] *)
  w_heap : list pstate;
  w_reactions : list (nat * (nat * Message));
  w_current : nat;                (* [this.current] *)
  w_calls : list Call;
  w_log : list Obs;
}.
Arguments mkWorld {DB} _ _ _ _ _ _ _.
Arguments w_db {DB} _.
Arguments w_sent {DB} _.
Arguments w_heap {DB} _.
Arguments w_reactions {DB} _.
Arguments w_current {DB} _.
Arguments w_calls {DB} _.
Arguments w_log {DB} _.

Section Dispatcher.
Context {DB : Type} (db : Client DB) (token : string).

Definition set_db (st : DB) (w : World DB) : World DB :=
  mkWorld st (w_sent w) (w_heap w) (w_reactions w) (w_current w) (w_calls w) (w_log w).
Definition add_sent (frames : list json) (w : World DB) : World DB :=
  mkWorld (w_db w) (w_sent w ++ frames) (w_heap w) (w_reactions w) (w_current w)
          (w_calls w) (w_log w).
Definition set_heap (h : list pstate) (w : World DB) : World DB :=
  mkWorld (w_db w) (w_sent w) h (w_reactions w) (w_current w) (w_calls w) (w_log w).
Definition set_reactions (rs : list (nat * (nat * Message))) (w : World DB) : World DB :=
  mkWorld (w_db w) (w_sent w) (w_heap w) rs (w_current w) (w_calls w) (w_log w).
Definition set_current (p : nat) (w : World DB) : World DB :=
  mkWorld (w_db w) (w_sent w) (w_heap w) (w_reactions w) p (w_calls w) (w_log w).
Definition set_calls (cs : list Call) (w : World DB) : World DB :=
  mkWorld (w_db w) (w_sent w) (w_heap w) (w_reactions w) (w_current w) cs (w_log w).
Definition add_log (o : Obs) (w : World DB) : World DB :=
  mkWorld (w_db w) (w_sent w) (w_heap w) (w_reactions w) (w_current w) (w_calls w)
          (w_log w ++ [o]).

Definition settled (c : completion ()) : pstate :=
  match c with
  | Normal _ => Fulfilled
  | Throw e => Rejected e
  end.

Definition waits_on (d : nat) (r : nat * (nat * Message)) : bool :=
  bool_decide (r.1 = d).

(** A handler starts: it runs up to its first suspension.  Only
    [handleExecuteRequest] suspends, on the promise of [db.execute]; every
    other handler runs to its end, which [finish] takes over. *)
Definition begin_with (finish : nat -> Effect -> World DB -> World DB)
    (d : nat) (msg : Message) (w : World DB) : World DB :=
  let w := add_log (Begins d) w in
  match msg with
  | RequestMsg requestId (ExecuteBody _ body) =>
      let '(st', outcome) := execute db (w_db w) (executeCall body) in
      set_db st'
        (set_calls (w_calls w ++
                    [mkCall d requestId outcome
                            (latency db (w_db w) (executeCall body))]) w)
  | _ => finish d (handleMessage db token (w_db w) msg).2 w
  end.

(** A handler ends with effect [eff]: its frames go out, its promise [d]
    settles, and whatever was chained on [d] with [then] reacts: started
    when [d] is fulfilled, rejected in turn when [d] is rejected. *)
Fixpoint finish (fuel : nat) (d : nat) (eff : Effect) (w : World DB) : World DB :=
  let how := settled eff.2 in
  let w := add_sent eff.1 w in
  let w := add_log (Settles d how) (set_heap (<[d := how]> (w_heap w)) w) in
  let mine := filter (fun r => waits_on d r = true) (w_reactions w) in
  let w := set_reactions (filter (fun r => waits_on d r = false) (w_reactions w)) w in
  match fuel with
  | O => w
  | S fuel' =>
      foldl (fun w r =>
               match how with
               | Rejected e => finish fuel' r.2.1 ([], Throw e) w
               | _ => begin_with (finish fuel') r.2.1 r.2.2 w
               end) w mine
  end.

(** The reactions parked in [w] bound how deep a chain of wake-ups can
    go, so that many steps of [fuel] are enough. *)
Definition begin (d : nat) (msg : Message) (w : World DB) : World DB :=
  begin_with (finish (length (w_reactions w))) d msg w.

(** [p.then(handler)]: allocates the derived promise; the handler is run
    at once when [p] is already fulfilled (its job is the next thing the
    loop does), skipped when [p] is rejected, parked when [p] is pending. *)
Definition promise_then (p : nat) (msg : Message) (w : World DB) : nat * World DB :=
  let d := length (w_heap w) in
  let w' := set_heap (w_heap w ++ [Pending]) w in
  (d, match w_heap w !! p with
      | Some Fulfilled => begin d msg w'
      | Some (Rejected e) => finish (length (w_reactions w')) d ([], Throw e) w'
      | _ => set_reactions (w_reactions w' ++ [(p, (d, msg))]) w'
      end).

(** [push(handler) { this.current.then(handler); }] *)
Definition push (msg : Message) (w : World DB) : World DB :=
  (promise_then (w_current w) msg w).2.

(** The dispatcher the specification describes, for comparison: "each
    submission chains onto the tail and becomes the new tail". *)
Definition push_tail (msg : Message) (w : World DB) : World DB :=
  let '(d, w') := promise_then (w_current w) msg w in
  set_current d w'.

(** The constructor: [this.current = Promise.resolve()]. *)
Definition init (st : DB) : World DB :=
  mkWorld st [] [Fulfilled] [] 0 [] [].

(** The engine answers call [c]: the suspended handler resumes. *)
Definition engineSettles (c : Call) (w : World DB) : World DB :=
  finish (length (w_reactions w)) (call_handler c)
         (executeSettled (call_request c) (call_outcome c)) w.

(** One turn of the loop with no arrival: the calls that are due settle,
    in the order they were made; the others get one turn closer. *)
Definition turn (w : World DB) (c : Call) : World DB :=
  match call_remaining c with
  | O => engineSettles c w
  | S n =>
      set_calls (w_calls w ++
                 [mkCall (call_handler c) (call_request c) (call_outcome c) n]) w
  end.

Definition tick (w : World DB) : World DB :=
  foldl turn (set_calls [] w) (w_calls w).

Inductive Event : Type :=
  | Arrives (msg : Message)       (* the socket emits "message" *)
  | Tick.

Definition fire_with (submit : Message -> World DB -> World DB)
    (ev : Event) (w : World DB) : World DB :=
  match ev with
  | Arrives msg => submit msg w
  | Tick => tick w
  end.

Definition run_with (submit : Message -> World DB -> World DB)
    (evs : list Event) (w : World DB) : World DB :=
  foldl (fun w ev => fire_with submit ev w) w evs.

(** The connection as written. *)
Definition fire : Event -> World DB -> World DB := fire_with push.
Definition run : list Event -> World DB -> World DB := run_with push.

(** A world in which [this.current] is fulfilled and nothing is parked. *)
Definition quiet (w : World DB) : Prop :=
  w_heap w !! w_current w = Some Fulfilled /\ w_reactions w = [].

(** What one [Tick] does to a call: it is answered, or it waits on. *)
Definition due_frames (c : Call) : list json :=
  match call_remaining c with
  | O => (executeSettled (call_request c) (call_outcome c)).1
  | S _ => []
  end.

Definition due_log (c : Call) : list Obs :=
  match call_remaining c with
  | O => [Settles (call_handler c) Fulfilled]
  | S _ => []
  end.

Definition requeue (c : Call) : option Call :=
  match call_remaining c with
  | O => None
  | S n => Some (mkCall (call_handler c) (call_request c) (call_outcome c) n)
  end.

Definition is_tick (ev : Event) : bool :=
  match ev with Tick => true | Arrives _ => false end.

(** How many turns without arrival a schedule holds. *)
Definition ticks (evs : list Event) : nat := length (List.filter is_tick evs).

Definition is_hello (ev : Event) : bool :=
  match ev with Arrives (HelloMsg _) => true | _ => false end.

End Dispatcher.

End Connection.

(* ===================================================================== *)
(** * A small engine to run the code on                                    *)
(* ===================================================================== *)

Module Demo.
Import Js Libsql.

Definition num (z : Z) : number := number_of_Z z.

(** How the engine reports a failure. *)
Definition LibsqlError (msg code : string) : JsError :=
  {| err_name := "LibsqlError"; err_message := msg;
     err_stack := "LibsqlError: " +:+ msg +:+ " at Sqlite3Client.execute";
     err_own := [("code", JStr code)] |}.

Definition syntax_error : JsError :=
  LibsqlError "SQLITE_ERROR: near 'INVALID': syntax error" "SQLITE_ERROR".

(** What [SELECT 1 AS x] returns. *)
Definition one_x : ResultSet :=
  mkResultSet ["x"] [""] [[("0", JNum (num 1)); ("x", JNum (num 1))]]
              (num 0) None.

(** What [SELECT 1 AS a, 2 AS a] returns: two columns of one name. *)
Definition two_a : ResultSet :=
  mkResultSet ["a"; "a"] [""; ""]
              [[("0", JNum (num 1)); ("a", JNum (num 1)); ("1", JNum (num 2))]]
              (num 0) None.

(** What an [INSERT] returns once the table holds [n] rows. *)
Definition inserted (n : nat) : ResultSet :=
  mkResultSet [] [] [] (num 1) (Some (Z.of_nat n)).

(** The database is one table, known by the number of rows put in it;
    [slow()] is a function that takes its time. *)
Definition run_sql (st : nat) (sql : string) : nat * completion ResultSet :=
  if bool_decide (sql = "SELECT 1 AS x") || bool_decide (sql = "SELECT slow()") then
    (st, Normal one_x)
  else if decide (sql = "SELECT 1 AS a, 2 AS a") then
    (st, Normal two_a)
  else if decide (sql = "INSERT INTO t VALUES (?)") then
    (S st, Normal (inserted (S st)))
  else (st, Throw syntax_error).

Definition stmt_sql (s : InStatement) : string :=
  match s with StmtText sql | StmtArgs sql _ => sql end.

Fixpoint run_batch (st : nat) (stmts : list InStatement)
  : nat * completion (list ResultSet) :=
  match stmts with
  | [] => (st, Normal [])
  | s :: stmts' =>
      match run_sql st (stmt_sql s) with
      | (st1, Normal r) =>
          match run_batch st1 stmts' with
          | (st2, Normal rs) => (st2, Normal (r :: rs))
          | (_, Throw e) => (st, Throw e)
          end
      | (_, Throw e) => (st, Throw e)
      end
  end.

(** An [execute] request with no arguments. *)
Definition exec (requestId : Z) (sql : string) : Connection.Message :=
  Connection.RequestMsg (num requestId)
    (Connection.ExecuteBody (num 1) (Connection.mkStmt sql [] [] true)).

Definition open_stream (requestId : Z) : Connection.Message :=
  Connection.RequestMsg (num requestId) (Connection.OpenStreamBody (num 1)).

(** The [request_id] of each frame sent, in order. *)
Definition request_ids (frames : list json) : list (option json) :=
  map (fun f => field f "request_id") frames.

Definition client : Client nat :=
  mkClient (fun st s => run_sql st (stmt_sql s))
           run_batch
           (fun _ s => if decide (stmt_sql s = "SELECT slow()") then 2 else 0).

End Demo.

(* ===================================================================== *)
(** * The specification's wording, and what the statements speak of      *)
(* ===================================================================== *)

Module Spec.
Import Js Studio.

(** "presence of CHAR, TEXT, CLOB, or STRING" in the uppercased type. *)
Definition text_family (u : string) : Prop :=
  occurs_in "CHAR" u \/ occurs_in "TEXT" u \/ occurs_in "CLOB" u
  \/ occurs_in "STRING" u.

(** "REAL / DOUBLE / FLOAT". *)
Definition real_family (u : string) : Prop :=
  occurs_in "REAL" u \/ occurs_in "DOUBLE" u \/ occurs_in "FLOAT" u.

(** The affinity rules, in the order the specification gives them. *)
Inductive affinity : option string -> ColumnType -> Prop :=
  | affinity_undefined :
      affinity None BLOB
  | affinity_text t :
      text_family (toUpperCase t) ->
      affinity (Some t) TEXT
  | affinity_integer t :
      ~ text_family (toUpperCase t) ->
      occurs_in "INT" (toUpperCase t) ->
      affinity (Some t) INTEGER
  | affinity_blob t :
      ~ text_family (toUpperCase t) ->
      ~ occurs_in "INT" (toUpperCase t) ->
      occurs_in "BLOB" (toUpperCase t) ->
      affinity (Some t) BLOB
  | affinity_real t :
      ~ text_family (toUpperCase t) ->
      ~ occurs_in "INT" (toUpperCase t) ->
      ~ occurs_in "BLOB" (toUpperCase t) ->
      real_family (toUpperCase t) ->
      affinity (Some t) REAL
  | affinity_default t :
      ~ text_family (toUpperCase t) ->
      ~ occurs_in "INT" (toUpperCase t) ->
      ~ occurs_in "BLOB" (toUpperCase t) ->
      ~ real_family (toUpperCase t) ->
      affinity (Some t) TEXT.

(** Name resolution: "if the candidate name already appears in the set of
    names assigned so far, rewrite it as [__<original>_<i>] for increasing
    [i] starting at 0, trying up to 20 suffixes"; when none of them is
    free, "the last attempted name" is kept. *)
Definition first_free (assigned : gset string) (original : string)
    (suffixes : list nat) : option nat :=
  find (fun i => bool_decide (renamed original i ∉ assigned)) suffixes.

Definition resolve_spec (assigned : gset string) (original : string) : string :=
  if decide (original ∈ assigned) then
    match first_free assigned original (seq 0 20) with
    | Some i => renamed original i
    | None => renamed original 19
    end
  else original.

(** The wire form of the socket variant's column list:
    [cols:[{name, decltype}]]. *)
Definition wire_cols (r : Libsql.ResultSet) : list json :=
  imap (fun colIdx col =>
          JsonObj (("name", JsonStr col) ::
                   match Libsql.columnTypes r !! colIdx with
                   | Some t => [("decltype", JsonStr t)]
                   | None => []
                   end))
       (Libsql.columns r).

(** The wire form of the HTTP variant's headers:
    [headers:[{name, displayName, originalType, type:1|2|3|4}]]. *)
Definition wire_header (h : ResultHeader) : json :=
  JsonObj ([("name", JsonStr (name h));
            ("displayName", JsonStr (displayName h))]
           ++ match originalType h with
              | Some t => [("originalType", JsonStr t)]
              | None => []
              end
           ++ [("type", json_of_number (number_of_Z (ColumnType_value (type h))))]).

(** "an array of tagged values positionally aligned to columns": cell [j]
    of a row is the tagged value at position [j] of that row. *)
Definition tagged (v : jsval) : jsval :=
  JObj [("type", JStr (Connection.getValueType v)); ("value", v)].

Definition aligned_row (r : Libsql.ResultSet) (row : Libsql.Row) : jsval :=
  JArr (imap (fun j _ => tagged (Libsql.row_at row j)) (Libsql.columns r)).

Definition aligned_rows (r : Libsql.ResultSet) : jsval :=
  JArr (map (aligned_row r) (Libsql.rows r)).

(** A result set with the given columns and nothing else of interest. *)
Definition ofColumns (cols : list string) : Libsql.ResultSet :=
  Libsql.mkResultSet cols (map (fun _ => "TEXT") cols) [] (number_of_Z 0) None.

(** [names tys hs idx cols] are the keys the header callback hands out
    when it starts at column [idx] with [hs] already assigned. *)
Definition names (tys : list string) (hs : gset string) (idx : nat)
    (cols : list string) : list string :=
  map name (mapHeaders tys hs idx cols).

(** The names the loop can try for a column: the original, then the
    twenty suffixed ones. *)
Definition candidates (c : string) : list string :=
  c :: map (renamed c) (seq 0 20).

(** The rows of the socket frame, before serialization. *)
Definition socket_rows (r : Libsql.ResultSet) : list jsval :=
  map (fun row =>
         JArr (map (fun col =>
                      JObj [("type", JStr (Connection.getValueType (Libsql.row_named row col)));
                            ("value", Libsql.row_named row col)])
                   (Libsql.columns r)))
      (Libsql.rows r).

Definition socket_rowid (r : Libsql.ResultSet) : json :=
  match Libsql.lastInsertRowid r with
  | None => JsonNull
  | Some b => JsonStr (bigint_toString b)
  end.

(** The envelope the endpoint is meant to answer a failure with. *)
Definition failure_envelope (body : Body) (message : string) : json :=
  JsonObj [("type", JsonStr (body_type body));
           ("id", json_of_number (body_id body));
           ("error", JsonStr message)].

(** The frames of the socket protocol that carry no result set. *)
Definition hello_ok_frame : json := JsonObj [("type", JsonStr "hello_ok")].

Definition hello_error_frame : json :=
  JsonObj [("type", JsonStr "hello_error");
           ("error",
             JsonObj [("message", JsonStr "Authentication failed: The JWT is invalid");
                      ("code", JsonStr "AUTH_JWT_INVALID")])].

Definition open_stream_frame (requestId : number) : json :=
  JsonObj [("type", JsonStr "response_ok");
           ("request_id", json_of_number requestId);
           ("response", JsonObj [("type", JsonStr "open_stream")])].

Definition response_error_frame (requestId : number) (message : string) : json :=
  JsonObj [("type", JsonStr "response_error");
           ("request_id", json_of_number requestId);
           ("error", JsonObj [("message", JsonStr message)])].

End Spec.

(* ===================================================================== *)
(** * Start-up of the socket variant: connection.ts, [handleConnection]    *)
(* ===================================================================== *)

Module Launch.

(** What binding a probe server to a port ends in: the [error] event with
    code [EADDRINUSE], the [listening] event, or an [error] event with
    another code. *)
Inductive Probe : Type := InUse | Listening | OtherError.

(** [checkPortUsed(port)]: the promise resolves [true] or [false]; after
    an error of another kind nothing ever resolves it ([None]). *)
Definition checkPortUsed (outcome : Probe) : option bool :=
  match outcome with
  | InUse => Some true
  | Listening => Some false
  | OtherError => None
  end.

(** The line [console.log] prints before trying the next port. *)
Definition port_used_line (port : nat) : string :=
  "Port " +:+ pretty port +:+ " is already used. Trying another port".

(** The loop [for (let i = 0; i < 10; i++)] of [handleConnection], with
    [n] rounds left: the lines logged, and the port the loop ends on
    ([None] when an [await] never returns). *)
Fixpoint findPort (probe : nat -> Probe) (n : nat) (port : nat)
  : list string * option nat :=
  match n with
  | O => ([], Some port)
  | S n' =>
      match checkPortUsed (probe port) with
      | None => ([], None)
      | Some false => ([], Some port)
      | Some true =>
          let '(lines, p) := findPort probe n' (port + 1) in
          (port_used_line port :: lines, p)
      end
  end.

(** [let port = 4000] and the loop. *)
Definition choosePort (probe : nat -> Probe) : list string * option nat :=
  findPort probe 10 4000.

(** [buf.toString("hex")]: two lowercase hexadecimal digits per byte. *)
Definition hex_digit (n : N) : ascii :=
  match n with
  | 0 => "0" | 1 => "1" | 2 => "2" | 3 => "3" | 4 => "4" | 5 => "5"
  | 6 => "6" | 7 => "7" | 8 => "8" | 9 => "9" | 10 => "a" | 11 => "b"
  | 12 => "c" | 13 => "d" | 14 => "e" | _ => "f"
  end%N%char.

Fixpoint toString_hex (bytes : list Byte.byte) : string :=
  match bytes with
  | [] => EmptyString
  | b :: bytes' =>
      String (hex_digit (Byte.to_N b / 16))
        (String (hex_digit (Byte.to_N b mod 16)) (toString_hex bytes'))
  end.

(** Reading the digits back, to tell tokens apart. *)
Definition unhex_digit (c : ascii) : option N :=
  let n := N_of_ascii c in
  if (48 <=? n)%N && (n <=? 57)%N then Some (n - 48)%N
  else if (97 <=? n)%N && (n <=? 102)%N then Some (n - 87)%N
  else None.

Fixpoint parse_hex (s : string) : option (list Byte.byte) :=
  match s with
  | EmptyString => Some []
  | String hi (String lo s') =>
      h ← unhex_digit hi;
      l ← unhex_digit lo;
      b ← Byte.of_N (16 * h + l);
      bs ← parse_hex s';
      Some (b :: bs)
  | String _ EmptyString => None
  end.

Definition is_hex_char (c : ascii) : bool :=
  match unhex_digit c with Some _ => true | None => false end.

End Launch.

(* ===================================================================== *)
(** * The serving banner of the HTTP variant: studio.ts                    *)
(* ===================================================================== *)

Module Banner.

(** One entry of [os.networkInterfaces()]. *)
Record Alias : Type := mkAlias {
  family : string;
  address : string;
  internal : bool;
}.

Definition external_ipv4 (alias : Alias) : bool :=
  bool_decide (family alias = "IPv4")
  && negb (bool_decide (address alias = "127.0.0.1"))
  && negb (internal alias).

(** The inner loop [for (var i = 0; i < iface.length; i++)]: the address
    it returns, if it returns. *)
Fixpoint scanAliases (iface : list Alias) : option string :=
  match iface with
  | [] => None
  | alias :: iface' =>
      if external_ipv4 alias then Some (address alias) else scanAliases iface'
  end.

(** The outer loop [for (var devName in interfaces)]. *)
Fixpoint scanInterfaces (interfaces : list (string * list Alias)) : option string :=
  match interfaces with
  | [] => None
  | (devName, iface) :: interfaces' =>
      match scanAliases iface with
      | Some a => Some a
      | None => scanInterfaces interfaces'
      end
  end.

Definition getIPAddress (interfaces : list (string * list Alias)) : string :=
  default "0.0.0.0" (scanInterfaces interfaces).

(** Printed text, as UTF-16 code units: the box-drawing characters lie
    outside the 8-bit range. *)
Definition text : Type := list N.

Definition units (s : string) : text :=
  map N_of_ascii (list_ascii_of_string s).

Definition box_h : N := 9552.      (* U+2550 *)
Definition box_v : N := 9553.      (* U+2551 *)
Definition box_tl : N := 9556.     (* U+2554 *)
Definition box_tr : N := 9559.     (* U+2557 *)
Definition box_bl : N := 9562.     (* U+255A *)
Definition box_br : N := 9565.     (* U+255D *)
Definition blank : N := 32.

(** [new Array(n).fill(c).join("")], [s.substring(k)], [s.substring(0, k)]. *)
Definition fill (n : nat) (c : N) : text := replicate n c.
Definition substring_from (k : nat) (s : text) : text := drop k s.
Definition substring_to (k : nat) (s : text) : text := take k s.

(** [Math.max(...ns)] over lengths. *)
Definition maxOf (ns : list nat) : nat := foldr Nat.max 0 ns.

Definition banner_text (port : nat) (ip : string) : list text :=
  [units "Serving!";
   units ("- Local:    http://localhost:" +:+ pretty port);
   units ("- Network:  http://" +:+ ip +:+ ":" +:+ pretty port)].

(** [printServingMessage(port)]: the lines handed to [console.log]. *)
Definition printServingMessage (port : nat)
    (interfaces : list (string * list Alias)) : list text :=
  let text := banner_text port (getIPAddress interfaces) in
  let paddingY := 2 in
  let paddingX := 4 in
  let maxText := maxOf (map length text) in
  let topLine := fill (maxText + paddingX * 2 + 2) box_h in
  let space := fill (maxText + paddingX * 2 + 2) blank in
  let paddingSpace := substring_to paddingX space in
  ([[box_tl] ++ substring_from 2 topLine ++ [box_tr]]
   ++ replicate paddingY ([box_v] ++ substring_from 2 space ++ [box_v])
   ++ map (fun line =>
             [box_v] ++ paddingSpace ++ line
             ++ substring_to (maxText - length line) space
             ++ paddingSpace ++ [box_v])
          text
   ++ replicate paddingY ([box_v] ++ substring_from 2 space ++ [box_v])
   ++ [[box_bl] ++ substring_from 2 topLine ++ [box_br]])%list.

End Banner.

(* ===================================================================== *)
(** * Further notions the statements speak of                              *)
(* ===================================================================== *)

Module Notions.
Import Js Libsql Connection.

(** Whether a value holds a bigint somewhere. *)
Fixpoint has_bigint (v : jsval) : bool :=
  match v with
  | JBigInt _ => true
  | JArr items => existsb has_bigint items
  | JObj o => existsb (fun kv => match kv with (_, x) => has_bigint x end) o
  | _ => false
  end.

(** What [JSON.stringify] throws at a bigint. *)
Definition bigint_error : JsError :=
  TypeError "Do not know how to serialize a BigInt".

(** Induction on values, through arrays and objects. *)
Section jsval_induction.
Variable P : jsval -> Prop.
Hypothesis Hundefined : P JUndefined.
Hypothesis Hnull : P JNull.
Hypothesis Hbool : forall b, P (JBool b).
Hypothesis Hnum : forall x, P (JNum x).
Hypothesis Hbigint : forall z, P (JBigInt z).
Hypothesis Hstr : forall s, P (JStr s).
Hypothesis Hbuffer : forall bytes, P (JBuffer bytes).
Hypothesis Harr : forall items, Forall P items -> P (JArr items).
Hypothesis Hobj : forall o, Forall (fun kv => P kv.2) o -> P (JObj o).

Fixpoint jsval_induction (v : jsval) : P v :=
  match v with
  | JUndefined => Hundefined
  | JNull => Hnull
  | JBool b => Hbool b
  | JNum x => Hnum x
  | JBigInt z => Hbigint z
  | JStr s => Hstr s
  | JBuffer bytes => Hbuffer bytes
  | JArr items =>
      Harr items
        ((fix go (l : list jsval) : Forall P l :=
            match l with
            | [] => List.Forall_nil P
            | x :: l' => List.Forall_cons P x l' (jsval_induction x) (go l')
            end) items)
  | JObj o =>
      Hobj o
        ((fix go (l : props) : Forall (fun kv => P kv.2) l :=
            match l with
            | [] => List.Forall_nil _
            | kv :: l' => List.Forall_cons (fun kv => P kv.2) kv l' (jsval_induction kv.2) (go l')
            end) o)
  end.
End jsval_induction.

(** [serialize] on a value: it throws, and then the bigint error, exactly
    when the value holds a bigint. *)
Definition serializes (v : jsval) : Prop :=
  if has_bigint v then serialize v = Throw bigint_error
  else exists j, serialize v = Normal j.

(** The rows of a frame hold a bigint exactly when some cell does. *)
Definition bigint_cell (r : Libsql.ResultSet) : bool :=
  existsb (fun row => existsb (fun col => has_bigint (row_named row col)) (Libsql.columns r))
          (Libsql.rows r).

(** The statements a schedule hands to [db.execute], in arrival order. *)
Definition statement_of (ev : Event) : option InStatement :=
  match ev with
  | Arrives (RequestMsg _ (ExecuteBody _ body)) => Some (executeCall body)
  | _ => None
  end.

Definition statements (evs : list Event) : list InStatement :=
  omap statement_of evs.


(** A schedule with its stream ids rewritten by [f]. *)
Definition restream_body (f : number -> number) (b : RequestMessageBody)
  : RequestMessageBody :=
  match b with
  | ExecuteBody sid stmt => ExecuteBody (f sid) stmt
  | OpenStreamBody sid => OpenStreamBody (f sid)
  | CloseStreamBody sid => CloseStreamBody (f sid)
  end.

Definition restream (f : number -> number) (ev : Event) : Event :=
  match ev with
  | Arrives (RequestMsg requestId b) => Arrives (RequestMsg requestId (restream_body f b))
  | _ => ev
  end.

(** The engine call of a [POST /query] body throws [e], leaving the
    database at [st']. *)
Definition engine_throws {DB} (db : Client DB) (st : DB) (body : Studio.Body)
    (st' : DB) (e : JsError) : Prop :=
  match body with
  | Studio.QueryBody _ statement =>
      execute db st (StmtText statement) = (st', Throw e)
  | Studio.TransactionBody _ statements =>
      batch db st (map StmtText statements) = (st', Throw e)
  end.

(** The answer to a successful request: [{type, id, data}]. *)
Definition success_envelope (body : Studio.Body) (data : json) : json :=
  JsonObj [("type", JsonStr (Studio.body_type body));
           ("id", json_of_number (Studio.body_id body));
           ("data", data)].


End Notions.

(* ===================================================================== *)
(** * Type Mapper: declared types                                          *)
(* ===================================================================== *)

Module TypeMapper.
Import Js Studio Spec.

Lemma append_cons (c : ascii) (s t : string) :
  String c s +:+ t = String c (s +:+ t).
Proof. reflexivity. Qed.

Lemma append_nil (t : string) : "" +:+ t = t.
Proof. reflexivity. Qed.

Lemma startsWith_spec (p s : string) :
  startsWith s p = true <-> exists post, s = p +:+ post.
Proof.
  revert s. induction p as [|a p IH]; intros s; simpl.
  - split; [intros _; by exists s | done].
  - destruct s as [|b s].
    + split; [done | intros [post Hpost]; by rewrite append_cons in Hpost].
    + destruct (decide (a = b)) as [->|Hne].
      * rewrite IH. split; intros [post Hpost]; exists post;
          rewrite append_cons in *; congruence.
      * split; [done | intros [post Hpost]; rewrite append_cons in Hpost; congruence].
Qed.

Lemma includes_here (p post : string) : includes (p +:+ post) p = true.
Proof.
  assert (startsWith (p +:+ post) p = true) as H
    by (apply startsWith_spec; by exists post).
  destruct (p +:+ post); simpl; by rewrite H.
Qed.

Lemma includes_spec (s p : string) :
  includes s p = true <-> occurs_in p s.
Proof.
  split.
  - induction s as [|c s IH]; simpl; rewrite orb_true_iff.
    + intros [H|?]; [|done].
      apply startsWith_spec in H as [post ->]. by exists "", post.
    + intros [H|H].
      * apply startsWith_spec in H as [post Hpost]. exists "", post.
        by rewrite append_nil.
      * destruct (IH H) as (pre & post & ->). by exists (String c pre), post.
  - intros (pre & post & ->). induction pre as [|c pre IH].
    + rewrite append_nil. apply includes_here.
    + rewrite append_cons. simpl. rewrite IH. apply orb_true_r.
Qed.

Lemma not_includes_spec (s p : string) :
  includes s p = false <-> ~ occurs_in p s.
Proof. rewrite <- includes_spec. by destruct (includes s p). Qed.

(** The code computes the affinity the rules describe. *)
Lemma convertSqliteType_sound (type : option string) :
  affinity type (convertSqliteType type).
Proof.
  destruct type as [t|]; [|constructor]. unfold convertSqliteType.
  set (u := toUpperCase t).
  destruct (includes u "CHAR") eqn:Hchar;
    [apply affinity_text, or_introl; by apply includes_spec|].
  destruct (includes u "TEXT") eqn:Htext;
    [apply affinity_text, or_intror, or_introl; by apply includes_spec|].
  destruct (includes u "CLOB") eqn:Hclob;
    [apply affinity_text, or_intror, or_intror, or_introl; by apply includes_spec|].
  destruct (includes u "STRING") eqn:Hstring;
    [apply affinity_text; do 3 apply or_intror; by apply includes_spec|].
  assert (~ text_family u) as Hnt.
  { apply not_includes_spec in Hchar, Htext, Hclob, Hstring.
    unfold text_family. tauto. }
  destruct (includes u "INT") eqn:Hint;
    [apply affinity_integer; [done | by apply includes_spec]|].
  destruct (includes u "BLOB") eqn:Hblob;
    [apply affinity_blob; [done | by apply not_includes_spec | by apply includes_spec]|].
  apply not_includes_spec in Hint, Hblob.
  destruct (includes u "REAL") eqn:Hreal; simpl;
    [apply affinity_real; [done..|left; by apply includes_spec]|].
  destruct (includes u "DOUBLE") eqn:Hdouble; simpl;
    [apply affinity_real; [done..|right; left; by apply includes_spec]|].
  destruct (includes u "FLOAT") eqn:Hfloat; simpl;
    [apply affinity_real; [done..|right; right; by apply includes_spec]|].
  apply affinity_default; try done.
  apply not_includes_spec in Hreal, Hdouble, Hfloat. unfold real_family. tauto.
Qed.

(** The rules leave no choice: they name one type per declaration. *)
Lemma affinity_functional (type : option string) (c1 c2 : ColumnType) :
  affinity type c1 -> affinity type c2 -> c1 = c2.
Proof. intros H1 H2. destruct H1; inversion H2; subst; tauto. Qed.

(** C6: for every declared type (or undefined), [convertSqliteType]
    returns exactly the type the affinity rules name: BLOB for undefined;
    else TEXT when the uppercased string contains CHAR, TEXT, CLOB or
    STRING; else INTEGER when it contains INT; else BLOB when it contains
    BLOB; else REAL when it contains REAL, DOUBLE or FLOAT; else TEXT.  The
    TEXT family is tested before INT, so a type containing both INT and
    CHAR is TEXT; the specification's sample values come out as listed. *)
Theorem convertSqliteType_affinity :
  (forall (type : option string) (c : ColumnType),
      convertSqliteType type = c <-> affinity type c)
  /\ (forall t : string,
        occurs_in "INT" (toUpperCase t) /\ occurs_in "CHAR" (toUpperCase t) ->
        convertSqliteType (Some t) = TEXT)
  /\ convertSqliteType (Some "VARCHAR(10)") = TEXT
  /\ convertSqliteType (Some "INTEGER") = INTEGER
  /\ convertSqliteType (Some "DOUBLE") = REAL
  /\ convertSqliteType None = BLOB
  /\ convertSqliteType (Some "BLOB") = BLOB
  /\ convertSqliteType (Some "int char") = TEXT.
Proof.
  split; [|split; [|by vm_compute]].
  - intros type c. split.
    + intros <-. apply convertSqliteType_sound.
    + intros H. eapply affinity_functional; [apply convertSqliteType_sound | done].
  - intros t [_ Hchar]. unfold convertSqliteType.
    apply includes_spec in Hchar. by rewrite Hchar.
Qed.

End TypeMapper.

(* ===================================================================== *)
(** * Type Mapper: the schema and its deduplicated names                   *)
(* ===================================================================== *)

Module Schema.
Import Js Libsql Studio Spec.

Lemma names_cons tys hs idx col cols :
  names tys hs idx (col :: cols)
  = resolveName hs col
    :: names tys ({[resolveName hs col]} ∪ hs) (S idx) cols.
Proof. reflexivity. Qed.

Lemma schemaKeys_names (raw : ResultSet) :
  schemaKeys raw = names (columnTypes raw) ∅ 0 (columns raw).
Proof. reflexivity. Qed.

(** *** The loop against the specification's wording *)

Lemma renameLoop_suffixes hs c n i :
  renameLoop hs c n (S i) (renamed c i)
  = match first_free hs c (seq i (S n)) with
    | Some j => renamed c j
    | None => renamed c (i + n)
    end.
Proof.
  revert i. induction n as [|n IH]; intros i.
  - simpl. unfold first_free. simpl.
    case_bool_decide; [done | by rewrite Nat.add_0_r].
  - change (renameLoop hs c (S n) (S i) (renamed c i))
      with (if decide (renamed c i ∈ hs)
            then renameLoop hs c n (S (S i)) (renamed c (S i))
            else renamed c i).
    rewrite IH. unfold first_free.
    change (seq i (S (S n))) with (i :: seq (S i) (S n)).
    cbn [find]. destruct (decide (renamed c i ∈ hs)) as [Hin|Hout].
    + rewrite bool_decide_eq_false_2 by (intros ?; done).
      by replace (i + S n) with (S i + n) by lia.
    + by rewrite bool_decide_eq_true_2.
Qed.

Lemma resolveName_spec hs c : resolveName hs c = resolve_spec hs c.
Proof.
  unfold resolveName, resolve_spec.
  change (renameLoop hs c 20 0 c)
    with (if decide (c ∈ hs) then renameLoop hs c 19 1 (renamed c 0) else c).
  destruct (decide (c ∈ hs)); [|done]. by rewrite renameLoop_suffixes.
Qed.

(** *** Columns are resolved in order, each against the names before it *)

Lemma names_lookup tys hs idx cols k :
  names tys hs idx cols !! k
  = (fun c => resolveName (hs ∪ list_to_set (take k (names tys hs idx cols))) c)
      <$> cols !! k.
Proof.
  revert hs idx k. induction cols as [|col cols IH]; intros hs idx k; [done|].
  rewrite names_cons. destruct k as [|k]; simpl.
  - by rewrite (right_id_L ∅ (∪)).
  - rewrite IH. destruct (cols !! k) as [c|]; [simpl|done].
    do 2 f_equal. apply set_eq. intros x. rewrite !elem_of_union. tauto.
Qed.

Lemma displayName_columns tys hs idx cols :
  map displayName (mapHeaders tys hs idx cols) = cols.
Proof.
  revert hs idx. induction cols as [|col cols IH]; intros hs idx; simpl;
    [done | by rewrite IH].
Qed.

(** C5: each column is resolved in order against the set of names
    assigned so far; a name already assigned is rewritten as
    [__<original>_<i>] for [i] from 0, at most 20 suffixes being tried, the
    last of which is kept when all are taken.  Columns a, a, a give the
    keys a, __a_0, __a_1; of 21 identical columns the last gets the
    twentieth suffix __a_19, and a 22nd column gets nothing beyond it;
    every entry's [displayName] is the original column name. *)
Theorem dedup_algorithm :
  (forall (assigned : gset string) (original : string),
      resolveName assigned original = resolve_spec assigned original)
  /\ (forall (raw : ResultSet) (k : nat),
        schemaKeys raw !! k
        = (fun c => resolveName (list_to_set (take k (schemaKeys raw))) c)
            <$> columns raw !! k)
  /\ schemaKeys (ofColumns ["a"; "a"; "a"]) = ["a"; "__a_0"; "__a_1"]
  /\ last (schemaKeys (ofColumns (replicate 21 "a"))) = Some "__a_19"
  /\ last (schemaKeys (ofColumns (replicate 22 "a"))) = Some "__a_19"
  /\ (forall raw : ResultSet,
        map displayName (res_headers (transformRawResult raw)) = columns raw).
Proof.
  split; [apply resolveName_spec|].
  split.
  { intros raw k. rewrite schemaKeys_names, names_lookup.
    by rewrite (left_id_L ∅ (∪)). }
  split; [by vm_compute|]. split; [by vm_compute|]. split; [by vm_compute|].
  intros raw. apply displayName_columns.
Qed.

(** *** Uniqueness of the keys, and where it stops *)

Lemma length_append (s t : string) :
  String.length (s +:+ t) = String.length s + String.length t.
Proof. induction s as [|a s IH]; [done|]. change (String a s +:+ t) with (String a (s +:+ t)). simpl. by rewrite IH. Qed.

Lemma renamed_ne_original c i : renamed c i ≠ c.
Proof.
  intros H. apply (f_equal String.length) in H. unfold renamed in H.
  rewrite !length_append in H. simpl in H. lia.
Qed.

Lemma renamed_inj c i j : renamed c i = renamed c j -> i = j.
Proof.
  unfold renamed. intros H.
  do 3 apply String.app_inj in H. by apply (inj pretty) in H.
Qed.

Lemma candidates_NoDup c : NoDup (candidates c).
Proof.
  apply NoDup_cons. split.
  - intros Hin. apply list_elem_of_fmap in Hin as (j & Hj & _).
    by apply (renamed_ne_original c j).
  - apply NoDup_fmap_2_strong; [|apply NoDup_seq].
    intros i j _ _. apply renamed_inj.
Qed.

(** When the loop ends on a taken name, everything it tried was taken. *)
Lemma renameLoop_taken hs c n i cand :
  n ≠ 0 ->
  renameLoop hs c n i cand ∈ hs ->
  cand ∈ hs /\ forall j, i <= j < i + n -> renamed c j ∈ hs.
Proof.
  revert i cand. induction n as [|n IH]; intros i cand Hn; [done|]. simpl.
  destruct (decide (cand ∈ hs)) as [Hcand|Hcand]; [|done].
  intros Hres. split; [done|].
  destruct n as [|n].
  - simpl in Hres. intros j Hj. by replace j with i by lia.
  - destruct (IH (S i) (renamed c i) ltac:(done) Hres) as [Hi Hrest].
    intros j Hj. destruct (decide (j = i)) as [->|]; [done|].
    apply Hrest. lia.
Qed.

Lemma resolveName_fresh hs c : size hs <= 20 -> resolveName hs c ∉ hs.
Proof.
  intros Hsize Hin.
  apply renameLoop_taken in Hin as [Hc Hall]; [|done].
  assert (list_to_set (candidates c) ⊆ hs) as Hsub.
  { intros x Hx. apply elem_of_list_to_set in Hx.
    apply elem_of_cons in Hx as [->|Hx]; [done|].
    apply list_elem_of_fmap in Hx as (j & -> & Hj).
    apply elem_of_seq in Hj. apply Hall. lia. }
  apply subseteq_size in Hsub.
  rewrite size_list_to_set in Hsub by apply candidates_NoDup.
  simpl in Hsub. lia.
Qed.

Lemma names_fresh tys hs idx cols :
  size hs + length cols <= 21 ->
  NoDup (names tys hs idx cols)
  /\ forall n, n ∈ names tys hs idx cols -> n ∉ hs.
Proof.
  revert hs idx. induction cols as [|col cols IH]; intros hs idx Hsize.
  - split; [constructor | by intros n ?%elem_of_nil].
  - rewrite names_cons. simpl in Hsize.
    assert (resolveName hs col ∉ hs) as Hfresh by (apply resolveName_fresh; lia).
    destruct (IH ({[resolveName hs col]} ∪ hs) (S idx)) as [Hnd Hout].
    { rewrite size_union by (by apply disjoint_singleton_l).
      rewrite size_singleton. lia. }
    split.
    + apply NoDup_cons. split; [|done].
      intros Hin. apply Hout in Hin.
      by apply Hin, elem_of_union_l, elem_of_singleton.
    + intros n Hn. apply elem_of_cons in Hn as [->|Hn]; [done|].
      apply Hout in Hn. intros Hhs. by apply Hn, elem_of_union_r.
Qed.

(** C4, as the code has it: the keys of a schema are pairwise distinct
    whenever the result set has at most 21 columns (the loop can try the
    original name and twenty suffixes). *)
Theorem schema_keys_unique_upto_21 (raw : ResultSet) :
  length (columns raw) <= 21 -> NoDup (schemaKeys raw).
Proof.
  intros Hlen. rewrite schemaKeys_names.
  apply names_fresh. rewrite size_empty. lia.
Qed.

Lemma schema_keys_unique_upto_21_witness :
  length (columns (ofColumns (replicate 21 "a"))) <= 21
  /\ NoDup (schemaKeys (ofColumns (replicate 21 "a"))).
Proof.
  split; [vm_compute; lia|].
  apply (schema_keys_unique_upto_21 (ofColumns (replicate 21 "a"))).
  vm_compute; lia.
Defined.

(** C4, as stated, fails: with 22 columns all named a, the last two keys
    are both __a_19. *)
Lemma schema_keys_collide_at_22 :
  schemaKeys (ofColumns (replicate 22 "a")) !! 20 = Some "__a_19"
  /\ schemaKeys (ofColumns (replicate 22 "a")) !! 21 = Some "__a_19"
  /\ ~ NoDup (schemaKeys (ofColumns (replicate 22 "a"))).
Proof.
  assert (schemaKeys (ofColumns (replicate 22 "a")) !! 20 = Some "__a_19") as H20
    by (by vm_compute).
  assert (schemaKeys (ofColumns (replicate 22 "a")) !! 21 = Some "__a_19") as H21
    by (by vm_compute).
  split; [done|]. split; [done|].
  intros Hnd. by pose proof (NoDup_lookup _ _ _ _ Hnd H20 H21).
Qed.

End Schema.

(* ===================================================================== *)
(** * Facts about serialization                                            *)
(* ===================================================================== *)

Module JsonFacts.
Import Js.

Lemma serialize_arr (l : list jsval) :
  serialize (JArr l) = js ← serialize_elems l; Normal (Some (JsonArr js)).
Proof. reflexivity. Qed.

Lemma serialize_obj (o : props) :
  serialize (JObj o) = fs ← serialize_fields o; Normal (Some (JsonObj fs)).
Proof. reflexivity. Qed.

Lemma serialize_undefined : serialize JUndefined = Normal None.
Proof. reflexivity. Qed.
Lemma serialize_null : serialize JNull = Normal (Some JsonNull).
Proof. reflexivity. Qed.
Lemma serialize_num x : serialize (JNum x) = Normal (Some (json_of_number x)).
Proof. reflexivity. Qed.
Lemma serialize_str s : serialize (JStr s) = Normal (Some (JsonStr s)).
Proof. reflexivity. Qed.

Create Rewrite HintDb ser.
#[export] Hint Rewrite serialize_obj serialize_arr serialize_undefined
  serialize_null serialize_num serialize_str : ser.

(** Step through the serialization of an object literal. *)
Ltac ser :=
  repeat (autorewrite with ser;
          cbn [serialize_fields serialize_elems mbind completion_bind default]).

Lemma serialize_elems_map {A} (f : A -> jsval) (g : A -> json) (l : list A) :
  (forall x, serialize (f x) = Normal (Some (g x))) ->
  serialize_elems (map f l) = Normal (map g l).
Proof.
  intros H. induction l as [|x l IH]; [done|].
  simpl. rewrite H. simpl. by rewrite IH.
Qed.

Lemma serialize_elems_imap {A} (f : nat -> A -> jsval) (g : nat -> A -> json)
    (l : list A) :
  (forall i x, serialize (f i x) = Normal (Some (g i x))) ->
  serialize_elems (imap f l) = Normal (imap g l).
Proof.
  intros H. revert f g H. induction l as [|x l IH]; intros f g H; [done|].
  simpl. rewrite H. simpl. by rewrite (IH (f ∘ S) (g ∘ S)) by (intros; apply H).
Qed.

End JsonFacts.

(* ===================================================================== *)
(** * Result Serializer                                                    *)
(* ===================================================================== *)

Module Serializer.
Import Js Libsql Studio Connection Spec JsonFacts.

(** The frame [prepareResult] builds, field by field: only a row value
    without a JSON form can make it throw. *)
Lemma prepareResult_frame (requestId : number) (r : ResultSet) :
  prepareResult requestId r
  = rows ← serialize_elems (socket_rows r);
    Normal
      (JsonObj
         [("type", JsonStr "response_ok");
          ("request_id", json_of_number requestId);
          ("response",
            JsonObj
              [("type", JsonStr "execute");
               ("result",
                 JsonObj
                   [("cols", JsonArr (wire_cols r));
                    ("rows", JsonArr rows);
                    ("last_insert_rowid", socket_rowid r);
                    ("affected_row_count", json_of_number (rowsAffected r))])])]).
Proof.
  unfold prepareResult, JSON_stringify. ser.
  rewrite (serialize_elems_imap _
             (fun colIdx col =>
                JsonObj (("name", JsonStr col) ::
                         match columnTypes r !! colIdx with
                         | Some t => [("decltype", JsonStr t)]
                         | None => []
                         end))).
  2:{ intros i x. ser. by destruct (columnTypes r !! i); ser. }
  fold (socket_rows r). ser.
  destruct (serialize_elems (socket_rows r)) as [rows|e]; [|done].
  unfold socket_rowid. by destruct (lastInsertRowid r); ser.
Qed.

Lemma js_header_json (h : ResultHeader) :
  serialize (js_header h) = Normal (Some (wire_header h)).
Proof.
  unfold js_header, wire_header. ser.
  destruct (originalType h); ser; reflexivity.
Qed.

(** The [data] of the HTTP answer, field by field. *)
Lemma js_result_json (raw : ResultSet) :
  res_json (js_result (transformRawResult raw))
  = rows ← serialize_elems (map JObj (res_rows (transformRawResult raw)));
    Normal
      (JsonObj
         ([("rows", JsonArr rows);
           ("stat",
             JsonObj [("rowsAffected", json_of_number (rowsAffected raw));
                      ("rowsRead", JsonNull);
                      ("rowsWritten", JsonNull);
                      ("queryDurationMs", json_of_number (number_of_Z 0))]);
           ("headers",
             JsonArr (map wire_header (res_headers (transformRawResult raw))))]
          ++ match lastInsertRowid raw with
             | Some b => [("lastInsertRowid", json_of_number (Number_of_bigint b))]
             | None => []
             end)).
Proof.
  unfold res_json, JSON_stringify, js_result. ser.
  rewrite (serialize_elems_map _ wire_header) by apply js_header_json.
  unfold js_stat.
  cbn [res_stat res_lastInsertRowid transformRawResult stat_rowsAffected
       stat_rowsRead stat_rowsWritten stat_queryDurationMs js_opt_number].
  ser.
  destruct (serialize_elems (map JObj _)) as [rows|e]; [|done].
  destruct (lastInsertRowid raw); ser; reflexivity.
Qed.

(** C8: the socket frame carries [last_insert_rowid] as the decimal string
    of the engine's value, or null when there is none; the HTTP answer
    carries [lastInsertRowid] as that value turned into a number, and has
    no such field when there is none. *)
Theorem last_insert_rowid_by_transport
    (r : ResultSet) (requestId : number) (frame data : json) :
  prepareResult requestId r = Normal frame ->
  res_json (js_result (transformRawResult r)) = Normal data ->
  path frame ["response"; "result"; "last_insert_rowid"]
  = Some (match lastInsertRowid r with
          | Some b => JsonStr (bigint_toString b)
          | None => JsonNull
          end)
  /\ field data "lastInsertRowid"
     = match lastInsertRowid r with
       | Some b => Some (json_of_number (Number_of_bigint b))
       | None => None
       end.
Proof.
  rewrite prepareResult_frame, js_result_json. intros Hframe Hdata.
  destruct (serialize_elems (socket_rows r)) as [rows|?]; [|done].
  destruct (serialize_elems (map JObj _)) as [rows'|?]; [|done].
  simpl in Hframe, Hdata. injection Hframe as <-. injection Hdata as <-.
  unfold socket_rowid. split; destruct (lastInsertRowid r); reflexivity.
Qed.

Lemma last_insert_rowid_by_transport_witness :
  exists frame data,
    prepareResult (Demo.num 5) (Demo.inserted 7) = Normal frame
    /\ res_json (js_result (transformRawResult (Demo.inserted 7))) = Normal data
    /\ path frame ["response"; "result"; "last_insert_rowid"] = Some (JsonStr "7")
    /\ field data "lastInsertRowid" = Some (JsonNum (Demo.num 7)).
Proof.
  eexists _, _.
  split; [by vm_compute|]. split; [by vm_compute|].
  apply (last_insert_rowid_by_transport (Demo.inserted 7) (Demo.num 5));
    by vm_compute.
Defined.

(** Beyond 2^53 the two transports no longer agree on the value. *)
Example rowid_precision :
  bigint_toString (2 ^ 53 + 1) = "9007199254740993"
  /\ Number_of_bigint (2 ^ 53 + 1) = Number_of_bigint (2 ^ 53).
Proof. by vm_compute. Qed.

(** *** Socket rows *)

Lemma getValueType_tags (v : jsval) :
  getValueType v
  = match v with
    | JStr _ => "text"
    | JNum _ => "float"
    | JNull => "null"
    | _ => "text"
    end.
Proof. by destruct v. Qed.

(** Cells are looked up by column name; they sit at their column's
    position when every name leads to the value at that position. *)
Lemma socket_rows_aligned (r : ResultSet) :
  (forall row j col,
      row ∈ rows r -> columns r !! j = Some col ->
      row_named row col = row_at row j) ->
  JArr (socket_rows r) = aligned_rows r.
Proof.
  intros Hagree. unfold socket_rows, aligned_rows, aligned_row. f_equal.
  apply map_ext_in. intros row Hrow%list_elem_of_In. f_equal.
  rewrite <- (imap_const (fun col => JObj _)).
  apply imap_ext. intros j col Hcol. unfold tagged, const.
  by rewrite (Hagree row j col).
Qed.

(** C9 at a result with two columns named a, holding 1 and 2: both cells
    of the socket frame hold 1, the value filed under the name, where
    positional alignment puts 1 and 2. *)
Theorem socket_row_cells_by_name :
  (frame ← prepareResult (Demo.num 3) Demo.two_a;
   Normal (path frame ["response"; "result"; "rows"]))
  = Normal (Some (JsonArr [JsonArr
      [JsonObj [("type", JsonStr "float"); ("value", JsonNum (Demo.num 1))];
       JsonObj [("type", JsonStr "float"); ("value", JsonNum (Demo.num 1))]]]))
  /\ serialize (aligned_rows Demo.two_a)
     = Normal (Some (JsonArr [JsonArr
      [JsonObj [("type", JsonStr "float"); ("value", JsonNum (Demo.num 1))];
       JsonObj [("type", JsonStr "float"); ("value", JsonNum (Demo.num 2))]]])).
Proof. by vm_compute. Qed.

End Serializer.

(* ===================================================================== *)
(** * The handlers, one message at a time                                  *)
(* ===================================================================== *)

Module Handlers.
Import Js Libsql Connection Spec JsonFacts.

Lemma handleAuth_accepts (token : string) :
  handleAuth token token = ([hello_ok_frame], Normal ()).
Proof. unfold handleAuth. by rewrite decide_True. Qed.

Lemma handleAuth_rejects (token jwt : string) :
  jwt ≠ token ->
  handleAuth token jwt = ([hello_error_frame], Throw (Error auth_failed)).
Proof. intros Hne. unfold handleAuth. by rewrite decide_False. Qed.

Lemma handleOpenStream_frame (requestId : number) :
  handleOpenStream requestId = ([open_stream_frame requestId], Normal ()).
Proof. reflexivity. Qed.

(** After the [await]: a rejected call is answered with an error frame. *)
Lemma executeSettled_throw (requestId : number) (e : JsError) :
  executeSettled requestId (Throw e)
  = ([response_error_frame requestId (err_message e)], Normal ()).
Proof. reflexivity. Qed.

(** Whatever the engine answers, the handler sends one frame and its
    promise is fulfilled. *)
Lemma executeSettled_resolves (requestId : number) (o : completion ResultSet) :
  exists frame, executeSettled requestId o = ([frame], Normal ()).
Proof.
  unfold executeSettled. destruct (o ≫= _) as [frame|e]; [by exists frame|].
  by eexists.
Qed.

End Handlers.

(* ===================================================================== *)
(** * The dispatcher as written                                            *)
(* ===================================================================== *)

Module Dispatch.
Import Js Libsql Connection Spec Handlers.
Local Open Scope list_scope.

Section Facts.
Context {DB : Type} (db : Client DB) (token : string).
Implicit Types (w : World DB) (c : Call) (msg : Message) (ev : Event).

Abbreviation run := (run db token).
Abbreviation fire := (fire db token).
Abbreviation push := (push db token).
Abbreviation tick := (tick db token).

(** With nothing parked, settling a promise wakes nobody. *)
Lemma finish_plain fuel d (eff : Effect) w :
  w_reactions w = [] ->
  finish db token fuel d eff w
  = mkWorld (w_db w) (w_sent w ++ eff.1) (<[d := settled eff.2]> (w_heap w)) []
            (w_current w) (w_calls w) (w_log w ++ [Settles d (settled eff.2)]).
Proof. intros Hr. destruct fuel; simpl; by rewrite Hr. Qed.

(** [this.current] is never reassigned and is fulfilled from the start, so
    [then] runs the handler at once. *)
Lemma push_begins msg w :
  quiet w ->
  push msg w
  = begin_with db token (finish db token 0) (length (w_heap w)) msg
               (set_heap (w_heap w ++ [Pending]) w).
Proof.
  intros [Hcur Hr]. unfold Connection.push, promise_then. rewrite Hcur.
  unfold begin. simpl. by rewrite Hr.
Qed.

Lemma lookup_fulfilled_insert (h : list pstate) (p d : nat) :
  h !! p = Some Fulfilled -> <[d := Fulfilled]> h !! p = Some Fulfilled.
Proof.
  intros Hp. destruct (decide (d = p)) as [->|Hne].
  - apply list_lookup_insert_eq. by eapply lookup_lt_Some.
  - by rewrite list_lookup_insert_ne.
Qed.

Lemma lookup_fulfilled_fresh (h : list pstate) (p : nat) (how : pstate) :
  h !! p = Some Fulfilled ->
  <[length h := how]> (h ++ [Pending]) !! p = Some Fulfilled.
Proof.
  intros Hp. pose proof (lookup_lt_Some _ _ _ Hp).
  rewrite list_lookup_insert_ne by lia. by rewrite lookup_app_l.
Qed.

Lemma push_quiet msg w : quiet w -> quiet (push msg w).
Proof.
  intros Hq. rewrite push_begins by done. destruct Hq as [Hcur Hr].
  pose proof (lookup_lt_Some _ _ _ Hcur).
  unfold begin_with.
  destruct msg as [jwt|requestId [sid body|sid|sid]].
  - rewrite finish_plain by done. split; [|done]. simpl.
    by apply lookup_fulfilled_fresh.
  - simpl. destruct (execute db (w_db w) (executeCall body)) as [st' o].
    split; [|done]. simpl. by rewrite lookup_app_l.
  - rewrite finish_plain by done. split; [|done]. simpl.
    by apply lookup_fulfilled_fresh.
  - rewrite finish_plain by done. split; [|done]. simpl.
    by apply lookup_fulfilled_fresh.
Qed.

Lemma engineSettles_plain c w :
  w_reactions w = [] ->
  engineSettles db token c w
  = mkWorld (w_db w)
            (w_sent w ++ (executeSettled (call_request c) (call_outcome c)).1)
            (<[call_handler c := Fulfilled]> (w_heap w)) []
            (w_current w) (w_calls w)
            (w_log w ++ [Settles (call_handler c) Fulfilled]).
Proof.
  intros Hr. unfold engineSettles. rewrite finish_plain by done.
  destruct (executeSettled_resolves (call_request c) (call_outcome c)) as [f ->].
  done.
Qed.

Abbreviation turn := (turn db token).

Lemma turns_spec (cs : list Call) w :
  quiet w ->
  let w' := foldl turn w cs in
  quiet w'
  /\ w_sent w' = w_sent w ++ flat_map due_frames cs
  /\ w_log w' = w_log w ++ flat_map due_log cs
  /\ w_calls w' = w_calls w ++ omap requeue cs
  /\ w_db w' = w_db w
  /\ length (w_heap w') = length (w_heap w).
Proof.
  revert w. induction cs as [|c cs IH]; intros w Hq; simpl.
  { by rewrite !app_nil_r. }
  assert (quiet (turn w c)
          /\ w_sent (turn w c) = w_sent w ++ due_frames c
          /\ w_log (turn w c) = w_log w ++ due_log c
          /\ w_calls (turn w c) = w_calls w ++ option_list (requeue c)
          /\ w_db (turn w c) = w_db w
          /\ length (w_heap (turn w c)) = length (w_heap w))
    as (Hq' & Hs & Hl & Hc & Hd & Hh).
  { destruct Hq as [Hcur Hr]. unfold turn, due_frames, due_log, requeue.
    destruct (call_remaining c) as [|n].
    - rewrite engineSettles_plain by done. simpl.
      rewrite length_insert, app_nil_r.
      repeat split; try done. by apply lookup_fulfilled_insert.
    - simpl. by rewrite !app_nil_r. }
  destruct (IH (turn w c) Hq') as (Hq2 & Hs2 & Hl2 & Hc2 & Hd2 & Hh2).
  split; [done|].
  rewrite Hs2, Hl2, Hc2, Hd2, Hh2, Hs, Hl, Hc, Hd, Hh, <- !app_assoc.
  repeat split; try done. f_equal. by destruct (requeue c).
Qed.

Lemma tick_spec w :
  quiet w ->
  quiet (tick w)
  /\ w_sent (tick w) = w_sent w ++ flat_map due_frames (w_calls w)
  /\ w_log (tick w) = w_log w ++ flat_map due_log (w_calls w)
  /\ w_calls (tick w) = omap requeue (w_calls w)
  /\ w_db (tick w) = w_db w
  /\ length (w_heap (tick w)) = length (w_heap w).
Proof.
  intros Hq. apply (turns_spec (w_calls w) (set_calls [] w)). apply Hq.
Qed.

Lemma fire_quiet ev w : quiet w -> quiet (fire ev w).
Proof.
  intros Hq. destruct ev as [msg|]; [by apply push_quiet | by apply tick_spec].
Qed.

Lemma run_app (es1 es2 : list Event) w : run (es1 ++ es2) w = run es2 (run es1 w).
Proof. apply foldl_app. Qed.

Lemma run_quiet (es : list Event) w : quiet w -> quiet (run es w).
Proof.
  revert w. induction es as [|ev es IH]; intros w Hq; [done|].
  apply IH. by apply fire_quiet.
Qed.

Lemma init_quiet (st : DB) : quiet (init st).
Proof. done. Qed.

(** What an arrival does, message by message. *)
Lemma push_request_execute requestId sid body w :
  quiet w ->
  push (RequestMsg requestId (ExecuteBody sid body)) w
  = mkWorld (execute db (w_db w) (executeCall body)).1 (w_sent w)
            (w_heap w ++ [Pending]) [] (w_current w)
            (w_calls w ++
             [mkCall (length (w_heap w)) requestId
                     (execute db (w_db w) (executeCall body)).2
                     (latency db (w_db w) (executeCall body))])
            (w_log w ++ [Begins (length (w_heap w))]).
Proof.
  intros Hq. rewrite push_begins by done. destruct Hq as [_ Hr].
  unfold begin_with. simpl.
  destruct (execute db (w_db w) (executeCall body)) as [st' o].
  unfold set_db, set_calls, add_log, set_heap. simpl. by rewrite Hr.
Qed.

Lemma push_immediate msg w :
  quiet w ->
  (forall requestId sid body, msg ≠ RequestMsg requestId (ExecuteBody sid body)) ->
  let eff := (handleMessage db token (w_db w) msg).2 in
  push msg w
  = mkWorld (w_db w) (w_sent w ++ eff.1)
            (<[length (w_heap w) := settled eff.2]> (w_heap w ++ [Pending])) []
            (w_current w) (w_calls w)
            (w_log w ++ [Begins (length (w_heap w));
                         Settles (length (w_heap w)) (settled eff.2)]).
Proof.
  intros Hq Hmsg eff. rewrite push_begins by done. destruct Hq as [_ Hr].
  unfold begin_with.
  destruct msg as [jwt|requestId [sid body|sid|sid]];
    try (by destruct (Hmsg requestId sid body));
    rewrite finish_plain by done; simpl; by rewrite <- app_assoc.
Qed.

(** Frames, log and calls in flight only ever grow on arrival. *)
Lemma push_grows msg w :
  quiet w ->
  exists frames obs cs,
    w_sent (push msg w) = w_sent w ++ frames
    /\ w_log (push msg w) = w_log w ++ Begins (length (w_heap w)) :: obs
    /\ w_calls (push msg w) = w_calls w ++ cs.
Proof.
  intros Hq.
  destruct msg as [jwt|requestId [sid body|sid|sid]].
  2:{ rewrite push_request_execute by done. simpl.
      eexists [], [], _.
      split; [by rewrite app_nil_r | split; reflexivity]. }
  all: rewrite push_immediate by done; simpl;
    eexists _, _, [];
    (split; [reflexivity | split; [reflexivity | by rewrite app_nil_r]]).
Qed.

Lemma fire_keeps ev w (f : json) (o : Obs) :
  quiet w ->
  (f ∈ w_sent w -> f ∈ w_sent (fire ev w))
  /\ (o ∈ w_log w -> o ∈ w_log (fire ev w)).
Proof.
  intros Hq. destruct ev as [msg|]; simpl.
  - destruct (push_grows msg w Hq) as (frames & obs & cs & -> & -> & _).
    split; intros ?; apply elem_of_app; by left.
  - destruct (tick_spec w Hq) as (_ & -> & -> & _).
    split; intros ?; apply elem_of_app; by left.
Qed.

Lemma run_keeps (es : list Event) w (f : json) (o : Obs) :
  quiet w ->
  (f ∈ w_sent w -> f ∈ w_sent (run es w))
  /\ (o ∈ w_log w -> o ∈ w_log (run es w)).
Proof.
  revert w. induction es as [|ev es IH]; intros w Hq; [done|]. simpl.
  destruct (fire_keeps ev w f o Hq) as [Hs Hl].
  destruct (IH (fire ev w) (fire_quiet ev w Hq)) as [Hs' Hl'].
  split; auto.
Qed.

(** A call in flight is answered once its latency has gone by, whatever
    else arrives in between. *)
Lemma call_answered (es : list Event) w c :
  quiet w ->
  c ∈ w_calls w ->
  call_remaining c < ticks es ->
  (forall f, f ∈ (executeSettled (call_request c) (call_outcome c)).1 ->
             f ∈ w_sent (run es w))
  /\ Settles (call_handler c) Fulfilled ∈ w_log (run es w).
Proof.
  revert w c. induction es as [|ev es IH]; intros w c Hq Hc Hlat.
  { unfold ticks in Hlat. simpl in Hlat. lia. }
  destruct ev as [msg|].
  - apply (IH (push msg w) c); [by apply push_quiet| |done].
    destruct (push_grows msg w Hq) as (_ & _ & cs & _ & _ & ->).
    apply elem_of_app. by left.
  - pose proof (tick_spec w Hq) as (Hq' & Hs & Hl & Hcs & _).
    destruct (call_remaining c) as [|n] eqn:Hrem.
    + split.
      * intros f Hf. apply (run_keeps es (tick w) f (Begins 0) Hq').
        rewrite Hs. apply elem_of_app. right.
        apply list_elem_of_In, in_flat_map. exists c.
        split; [by apply list_elem_of_In|].
        unfold due_frames. rewrite Hrem. by apply list_elem_of_In.
      * apply (run_keeps es (tick w) JsonNull _ Hq').
        rewrite Hl. apply elem_of_app. right.
        apply list_elem_of_In, in_flat_map. exists c.
        split; [by apply list_elem_of_In|].
        unfold due_log. rewrite Hrem. by left.
    + apply (IH (tick w)
               (mkCall (call_handler c) (call_request c) (call_outcome c) n));
        [done| |].
      * rewrite Hcs. apply list_elem_of_omap. exists c. split; [done|].
        unfold requeue. by rewrite Hrem.
      * unfold ticks in *. simpl in *. lia.
Qed.

(** Handlers overlap: a message that arrives while a call is in flight
    has its handler begin at once, the call still unanswered. *)
Lemma handlers_overlap msg w c :
  quiet w ->
  c ∈ w_calls w ->
  c ∈ w_calls (push msg w)
  /\ exists obs, w_log (push msg w) = w_log w ++ Begins (length (w_heap w)) :: obs.
Proof.
  intros Hq Hc. destruct (push_grows msg w Hq) as (_ & obs & cs & _ & Hl & ->).
  split; [apply elem_of_app; by left | by exists obs].
Qed.

End Facts.

(** C1 on the connection as written: request 1 is slow, request 2 is not.
    Handler 2 begins before handler 1 settles, and the response to
    request 2 goes out first. *)
Theorem slow_request_is_overtaken :
  let w := run Demo.client "secret"
               [Arrives (Demo.exec 1 "SELECT slow()");
                Arrives (Demo.exec 2 "SELECT 1 AS x");
                Tick; Tick; Tick]
               (init 0) in
  w_log w = [Begins 1; Begins 2; Settles 2 Fulfilled; Settles 1 Fulfilled]
  /\ Demo.request_ids (w_sent w)
     = [Some (JsonNum (Demo.num 2)); Some (JsonNum (Demo.num 1))].
Proof. by vm_compute. Qed.

(** The same schedule under the dispatcher the specification describes
    (the submission becomes the new tail): strictly one after the other. *)
Example tail_dispatch_is_fifo :
  let w := run_with Demo.client "secret" (push_tail Demo.client "secret")
               [Arrives (Demo.exec 1 "SELECT slow()");
                Arrives (Demo.exec 2 "SELECT 1 AS x");
                Tick; Tick; Tick; Tick]
               (init 0) in
  w_log w = [Begins 1; Settles 1 Fulfilled; Begins 2; Settles 2 Fulfilled]
  /\ Demo.request_ids (w_sent w)
     = [Some (JsonNum (Demo.num 1)); Some (JsonNum (Demo.num 2))].
Proof. by vm_compute. Qed.

(** C2, as the code has it: a hello with the secret is answered hello_ok;
    any other hello is answered hello_error with code AUTH_JWT_INVALID and
    its handler rejects; and on a connection that never received a hello,
    requests are processed all the same: open_stream is acknowledged,
    close_stream runs, execute goes to the engine. *)
Theorem hello_reports_requests_run {DB} (db : Client DB) (token : string)
    (st0 : DB) (es : list Event) (jwt : string) (requestId sid : number)
    (body : Stmt) :
  Forall (fun ev => is_hello ev = false) es ->
  let w := run db token es (init st0) in
  (jwt = token -> handleAuth token jwt = ([hello_ok_frame], Normal ()))
  /\ (jwt ≠ token ->
      handleAuth token jwt = ([hello_error_frame], Throw (Error auth_failed)))
  /\ path hello_error_frame ["error"; "code"] = Some (JsonStr "AUTH_JWT_INVALID")
  /\ w_sent (fire db token (Arrives (RequestMsg requestId (OpenStreamBody sid))) w)
     = w_sent w ++ [open_stream_frame requestId]
  /\ (exists obs,
        w_log (fire db token (Arrives (RequestMsg requestId (CloseStreamBody sid))) w)
        = w_log w ++ Begins (length (w_heap w)) :: obs)
  /\ w_calls (fire db token (Arrives (RequestMsg requestId (ExecuteBody sid body))) w)
     = w_calls w ++
       [mkCall (length (w_heap w)) requestId
               (execute db (w_db w) (executeCall body)).2
               (latency db (w_db w) (executeCall body))].
Proof.
  intros _ w.
  assert (quiet w) as Hq by apply run_quiet, init_quiet.
  split; [intros ->; apply handleAuth_accepts|].
  split; [apply handleAuth_rejects|].
  split; [reflexivity|].
  split; [simpl; by rewrite push_immediate|].
  split.
  - simpl. destruct (push_grows db token (RequestMsg requestId (CloseStreamBody sid)) w Hq)
      as (_ & obs & _ & _ & Hl & _).
    by exists obs.
  - simpl. by rewrite push_request_execute.
Qed.

Lemma hello_reports_requests_run_witness :
  Forall (fun ev => is_hello ev = false) [Arrives (Demo.open_stream 1); Tick]
  /\ w_sent (run Demo.client "secret"
                 [Arrives (Demo.open_stream 1); Tick; Arrives (Demo.open_stream 2)]
                 (init 0))
     = [open_stream_frame (Demo.num 1); open_stream_frame (Demo.num 2)].
Proof.
  assert (Forall (fun ev => is_hello ev = false) [Arrives (Demo.open_stream 1); Tick])
    as Hno by (by repeat constructor).
  split; [exact Hno|].
  exact (proj1 (proj2 (proj2 (proj2
           (hello_reports_requests_run Demo.client "secret" 0
              [Arrives (Demo.open_stream 1); Tick] "secret"
              (Demo.num 2) (Demo.num 1) (mkStmt "" [] [] true) Hno))))).
Defined.

(** C2, as stated, fails: a request on a connection that never said hello
    is processed and answered. *)
Lemma request_without_hello_is_answered :
  w_sent (run Demo.client "secret" [Arrives (Demo.open_stream 7)] (init 0))
  = [open_stream_frame (Demo.num 7)].
Proof. by vm_compute. Qed.

(** C7: when the engine call of an execute request throws, the handler
    catches it and sends a response_error frame with the request id and
    the error's message, and its promise is fulfilled, not rejected; on the
    connection, the frame is out once the call's latency has passed,
    whatever came before and whatever arrives meanwhile, and the next
    message is handled. *)
Theorem execute_failure_recovered {DB} (db : Client DB) (token : string)
    (st0 st' : DB) (before after : list Event) (requestId sid : number)
    (body : Stmt) (e : JsError) (next : Message) :
  let w := run db token before (init st0) in
  let w' := run db token
                (before ++ Arrives (RequestMsg requestId (ExecuteBody sid body)) :: after)
                (init st0) in
  execute db (w_db w) (executeCall body) = (st', Throw e) ->
  latency db (w_db w) (executeCall body) < ticks after ->
  handleExecuteRequest db (w_db w) requestId body
  = (st', ([response_error_frame requestId (err_message e)], Normal ()))
  /\ response_error_frame requestId (err_message e) ∈ w_sent w'
  /\ Settles (length (w_heap w)) Fulfilled ∈ w_log w'
  /\ exists obs,
       w_log (fire db token (Arrives next) w')
       = w_log w' ++ Begins (length (w_heap w')) :: obs.
Proof.
  intros w w' Hexec Hlat.
  assert (quiet w) as Hq by apply run_quiet, init_quiet.
  assert (quiet w') as Hq' by apply run_quiet, init_quiet.
  split; [unfold handleExecuteRequest; by rewrite Hexec|].
  set (msg := RequestMsg requestId (ExecuteBody sid body)).
  set (c := mkCall (length (w_heap w)) requestId (Throw e)
                   (latency db (w_db w) (executeCall body))).
  assert (w' = run db token after (push db token msg w)) as Hw'.
  { unfold w', Connection.run, run_with. by rewrite foldl_app. }
  assert (c ∈ w_calls (push db token msg w)) as Hc.
  { unfold msg. rewrite push_request_execute by done. simpl.
    rewrite Hexec. apply elem_of_app. right. by apply list_elem_of_singleton. }
  destruct (call_answered db token after (push db token msg w) c) as [Hs Hl];
    [by apply push_quiet | done | done |].
  rewrite Hw'. split; [|split].
  - apply Hs. simpl. by apply list_elem_of_singleton.
  - apply Hl.
  - rewrite <- Hw'.
    destruct (push_grows db token next w' Hq') as (_ & obs & _ & _ & Hlog & _).
    by exists obs.
Qed.

Lemma execute_failure_recovered_witness :
  response_error_frame (Demo.num 9) "SQLITE_ERROR: near 'INVALID': syntax error"
  ∈ w_sent (run Demo.client "secret"
                [Arrives (Demo.open_stream 1);
                 Arrives (Demo.exec 9 "INVALID SQL"); Tick]
                (init 0)).
Proof.
  refine (proj1 (proj2
    (execute_failure_recovered Demo.client "secret" 0 0
       [Arrives (Demo.open_stream 1)] [Tick] (Demo.num 9) (Demo.num 1)
       (mkStmt "INVALID SQL" [] [] true) Demo.syntax_error
       (Demo.open_stream 2) _ _))).
  - reflexivity.
  - vm_compute. lia.
Defined.

(** C10: two execute requests with the same SQL text and the same
    argument values, whatever their argument type tags, named_args and
    want_rows, make the same engine call and leave the connection in the
    same state, frames included, under every schedule. *)
Theorem execute_ignores_tags {DB} (db : Client DB) (token : string) (st0 : DB)
    (before after : list Event) (requestId sid : number) (b1 b2 : Stmt) :
  sql b1 = sql b2 ->
  map arg_value (args b1) = map arg_value (args b2) ->
  executeCall b1 = executeCall b2
  /\ (forall st, handleExecuteRequest db st requestId b1
                 = handleExecuteRequest db st requestId b2)
  /\ run db token
         (before ++ Arrives (RequestMsg requestId (ExecuteBody sid b1)) :: after)
         (init st0)
     = run db token
         (before ++ Arrives (RequestMsg requestId (ExecuteBody sid b2)) :: after)
         (init st0).
Proof.
  intros Hsql Hargs.
  assert (executeCall b1 = executeCall b2) as Hcall
    by (unfold executeCall; by rewrite Hsql, Hargs).
  split; [done|]. split.
  - intros st. unfold handleExecuteRequest. by rewrite Hcall.
  - rewrite !run_app. simpl. f_equal.
    assert (quiet (run db token before (init st0))) as Hq
      by apply run_quiet, init_quiet.
    rewrite !push_request_execute by done. by rewrite Hcall.
Qed.

Lemma execute_ignores_tags_witness :
  handleExecuteRequest Demo.client 0 (Demo.num 4)
    (mkStmt "INSERT INTO t VALUES (?)" [mkArg "integer" (JNum (Demo.num 1))] [] true)
  = handleExecuteRequest Demo.client 0 (Demo.num 4)
    (mkStmt "INSERT INTO t VALUES (?)" [mkArg "text" (JNum (Demo.num 1))] [JNull] false).
Proof.
  refine (proj1 (proj2
    (execute_ignores_tags Demo.client "secret" 0 [] [] (Demo.num 4) (Demo.num 1)
       (mkStmt "INSERT INTO t VALUES (?)" [mkArg "integer" (JNum (Demo.num 1))] [] true)
       (mkStmt "INSERT INTO t VALUES (?)" [mkArg "text" (JNum (Demo.num 1))] [JNull] false)
       _ _)) 0); reflexivity.
Defined.

End Dispatch.

(* ===================================================================== *)
(** * The HTTP endpoint                                                    *)
(* ===================================================================== *)

Module Endpoint.
Import Js Libsql Studio Spec.

(** An error without a [data] property makes the [catch] block itself
    throw: the callback rejects and the endpoint sends nothing. *)
Lemma catch_reads_error_data {DB} (db : Client DB) (st st' : DB)
    (id : number) (statement : string) (e : JsError) :
  execute db st (StmtText statement) = (st', Throw e) ->
  err_get e "data" = JUndefined ->
  serve_post_query db st (QueryBody id statement)
  = (st', Throw (TypeError "Cannot read properties of undefined (reading 'type')")).
Proof.
  intros Hexec Hdata. unfold serve_post_query. rewrite Hexec. simpl.
  by rewrite Hdata.
Qed.

(** C3 at a failing query: the engine rejects [INVALID SQL] with its
    error; the endpoint answers with no envelope at all, its callback
    rejecting with a TypeError raised inside the [catch] block; the same
    holds for a failing transaction. *)
Theorem failed_query_gets_no_envelope :
  (Demo.client.(execute) 0 (StmtText "INVALID SQL")).2 = Throw Demo.syntax_error
  /\ serve_post_query Demo.client 0 (QueryBody (Demo.num 1) "INVALID SQL")
     = (0, Throw (TypeError "Cannot read properties of undefined (reading 'type')"))
  /\ serve_post_query Demo.client 0
       (TransactionBody (Demo.num 2) ["INSERT INTO t VALUES (?)"; "INVALID SQL"])
     = (0, Throw (TypeError "Cannot read properties of undefined (reading 'type')"))
  /\ (serve_post_query Demo.client 0 (QueryBody (Demo.num 1) "INVALID SQL")).2
     ≠ Normal (failure_envelope (QueryBody (Demo.num 1) "INVALID SQL")
                                (err_message Demo.syntax_error)).
Proof. repeat split; by vm_compute. Qed.

End Endpoint.

(* ===================================================================== *)
(** * More on the HTTP result: headers and row objects                     *)
(* ===================================================================== *)

Module ResultFacts.
Import Js Libsql Studio Spec.
Local Open Scope list_scope.

Lemma resolveName_free (hs : gset string) (c : string) :
  c ∉ hs -> resolveName hs c = c.
Proof. intros Hc. unfold resolveName. simpl. by rewrite decide_False. Qed.

Lemma names_untouched tys hs idx cols :
  NoDup cols -> (forall c, c ∈ cols -> c ∉ hs) -> names tys hs idx cols = cols.
Proof.
  revert hs idx. induction cols as [|c cols IH]; intros hs idx Hnd Hout; [done|].
  apply NoDup_cons in Hnd as [Hc Hnd].
  rewrite Schema.names_cons, resolveName_free by (apply Hout; by left).
  f_equal. apply IH; [done|].
  intros c' Hc' [->%elem_of_singleton|Hin]%elem_of_union; [done|].
  apply (Hout c'); [by right | done].
Qed.

(** X1: column names that are pairwise distinct are left as they are. *)
Theorem distinct_columns_keep_their_names (raw : ResultSet) :
  NoDup (columns raw) -> schemaKeys raw = columns raw.
Proof.
  intros Hnd. rewrite Schema.schemaKeys_names. apply names_untouched; [done|].
  intros c _. apply not_elem_of_empty.
Qed.

Lemma distinct_columns_keep_their_names_witness :
  schemaKeys (ofColumns ["id"; "__id_0"; "name"]) = ["id"; "__id_0"; "name"].
Proof.
  apply (distinct_columns_keep_their_names (ofColumns ["id"; "__id_0"; "name"])).
  apply (bool_decide_unpack _). vm_compute. exact I.
Defined.

Lemma mapHeaders_length tys hs idx cols :
  length (mapHeaders tys hs idx cols) = length cols.
Proof.
  revert hs idx. induction cols as [|c cols IH]; intros hs idx; simpl;
    [done | by rewrite IH].
Qed.

Lemma mapHeaders_lookup tys hs idx cols j h :
  mapHeaders tys hs idx cols !! j = Some h ->
  cols !! j = Some (displayName h)
  /\ originalType h = tys !! (idx + j)
  /\ type h = convertSqliteType (tys !! (idx + j)).
Proof.
  revert hs idx j. induction cols as [|c cols IH]; intros hs idx j; [done|].
  destruct j as [|j]; simpl.
  - intros [= <-]. simpl. by rewrite Nat.add_0_r.
  - intros Hj. apply IH in Hj. by replace (idx + S j) with (S idx + j) by lia.
Qed.

(** X2: the headers line up with the result's columns: there is one per
    column, and header [j] shows column [j]'s name, carries the declared
    type found at position [j] (none when the list is shorter) and the
    type [convertSqliteType] makes of it. *)
Theorem headers_follow_columns (raw : ResultSet) :
  length (res_headers (transformRawResult raw)) = length (columns raw)
  /\ forall j h,
       res_headers (transformRawResult raw) !! j = Some h ->
       columns raw !! j = Some (displayName h)
       /\ originalType h = columnTypes raw !! j
       /\ type h = convertSqliteType (columnTypes raw !! j).
Proof.
  split; [apply mapHeaders_length|].
  intros j h Hj. by apply (mapHeaders_lookup _ _ 0) in Hj.
Qed.

(** *** Row objects *)







End ResultFacts.

(* ===================================================================== *)
(** * When serialization fails, and what the socket then sends             *)
(* ===================================================================== *)

Module FrameFacts.
Import Js Libsql Connection Spec Notions JsonFacts.
Local Open Scope list_scope.

Lemma serialize_elems_outcome (l : list jsval) :
  Forall serializes l ->
  if existsb has_bigint l then serialize_elems l = Throw bigint_error
  else exists js, serialize_elems l = Normal js /\ length js = length l.
Proof.
  induction 1 as [|x l Hx _ IH]; simpl; [by exists []|].
  unfold serializes in Hx. destruct (has_bigint x); simpl.
  - by rewrite Hx.
  - destruct Hx as [j ->]. simpl. destruct (existsb has_bigint l).
    + by rewrite IH.
    + destruct IH as (js & -> & Hlen). simpl. eexists. split; [done|].
      simpl. by rewrite Hlen.
Qed.

Lemma serialize_fields_outcome (o : props) :
  Forall (fun kv => serializes kv.2) o ->
  if existsb (fun kv => match kv with (_, x) => has_bigint x end) o
  then serialize_fields o = Throw bigint_error
  else exists fs, serialize_fields o = Normal fs.
Proof.
  induction 1 as [|[k x] o Hx _ IH]; simpl; [by exists []|].
  unfold serializes in Hx. simpl in Hx. destruct (has_bigint x); simpl.
  - by rewrite Hx.
  - destruct Hx as [j ->]. simpl. destruct (existsb _ o).
    + by rewrite IH.
    + destruct IH as (fs & ->). simpl. by eexists.
Qed.

Lemma serialize_outcome (v : jsval) : serializes v.
Proof.
  induction v as [| | | | | | |items IH|o IH] using jsval_induction;
    unfold serializes; simpl has_bigint; try (by eexists); try done.
  - rewrite serialize_arr. pose proof (serialize_elems_outcome items IH) as H.
    destruct (existsb has_bigint items).
    + by rewrite H.
    + destruct H as (js & -> & _). by eexists.
  - rewrite serialize_obj. pose proof (serialize_fields_outcome o IH) as H.
    destruct (existsb _ o).
    + by rewrite H.
    + destruct H as (fs & ->). by eexists.
Qed.

Lemma cell_has_bigint (v : jsval) :
  has_bigint (JObj [("type", JStr (getValueType v)); ("value", v)])
  = has_bigint v.
Proof. simpl. by rewrite orb_false_r. Qed.

Lemma existsb_through_map {A B} (f : B -> bool) (g : A -> B) (h : A -> bool)
    (l : list A) :
  (forall x, f (g x) = h x) -> existsb f (map g l) = existsb h l.
Proof. intros H. induction l as [|x l IH]; simpl; [done | by rewrite H, IH]. Qed.

Lemma socket_rows_bigint (r : ResultSet) :
  existsb has_bigint (socket_rows r) = bigint_cell r.
Proof.
  unfold socket_rows, bigint_cell. apply existsb_through_map. intros row.
  simpl. apply existsb_through_map. intros col. apply cell_has_bigint.
Qed.

Lemma socket_rows_outcome (r : ResultSet) :
  if bigint_cell r then serialize_elems (socket_rows r) = Throw bigint_error
  else exists js,
      serialize_elems (socket_rows r) = Normal js
      /\ length js = length (rows r).
Proof.
  pose proof (serialize_elems_outcome (socket_rows r)) as H.
  rewrite socket_rows_bigint in H.
  assert (length (socket_rows r) = length (rows r)) as Hlen
    by apply length_map.
  rewrite <- Hlen. apply H, Forall_forall. intros v _. apply serialize_outcome.
Qed.

(** X4: a result set none of whose cells holds a bigint is answered with
    a response_ok frame that echoes the request id, lists the columns
    with their declared types, carries one serialized row per row of the
    result, and reports the affected-row count. *)
Theorem clean_result_is_answered_ok (requestId : number) (r : ResultSet) :
  bigint_cell r = false ->
  exists frame rs,
    executeSettled requestId (Normal r) = ([frame], Normal ())
    /\ field frame "type" = Some (JsonStr "response_ok")
    /\ field frame "request_id" = Some (json_of_number requestId)
    /\ path frame ["response"; "result"; "cols"] = Some (JsonArr (wire_cols r))
    /\ path frame ["response"; "result"; "rows"] = Some (JsonArr rs)
    /\ length rs = length (rows r)
    /\ path frame ["response"; "result"; "affected_row_count"]
       = Some (json_of_number (rowsAffected r)).
Proof.
  intros Hclean. pose proof (socket_rows_outcome r) as H. rewrite Hclean in H.
  destruct H as (js & Hjs & Hlen).
  unfold executeSettled. cbn [mbind completion_bind].
  rewrite Serializer.prepareResult_frame, Hjs. cbn [mbind completion_bind].
  eexists _, js. repeat split; done.
Qed.

Lemma clean_result_is_answered_ok_witness :
  exists frame rs,
    executeSettled (Demo.num 3) (Normal Demo.two_a) = ([frame], Normal ())
    /\ field frame "type" = Some (JsonStr "response_ok")
    /\ field frame "request_id" = Some (json_of_number (Demo.num 3))
    /\ path frame ["response"; "result"; "cols"] = Some (JsonArr (wire_cols Demo.two_a))
    /\ path frame ["response"; "result"; "rows"] = Some (JsonArr rs)
    /\ length rs = length (rows Demo.two_a)
    /\ path frame ["response"; "result"; "affected_row_count"]
       = Some (json_of_number (rowsAffected Demo.two_a)).
Proof.
  apply (clean_result_is_answered_ok (Demo.num 3) Demo.two_a). reflexivity.
Defined.

(** X5: a result set with a bigint in some cell cannot be serialized:
    the execute handler answers it with a response_error frame whose
    message is that of the TypeError, and still resolves. *)
Theorem bigint_cell_is_answered_error (requestId : number) (r : ResultSet) :
  bigint_cell r = true ->
  prepareResult requestId r = Throw bigint_error
  /\ executeSettled requestId (Normal r)
     = ([response_error_frame requestId "Do not know how to serialize a BigInt"],
        Normal ()).
Proof.
  intros Hbig. pose proof (socket_rows_outcome r) as H. rewrite Hbig in H.
  assert (prepareResult requestId r = Throw bigint_error) as Hp
    by (by rewrite Serializer.prepareResult_frame, H).
  split; [done|]. unfold executeSettled. cbn [mbind completion_bind].
  by rewrite Hp.
Qed.

Lemma bigint_cell_is_answered_error_witness :
  executeSettled (Demo.num 3)
    (Normal (mkResultSet ["n"] ["INTEGER"] [[("0", JBigInt 7); ("n", JBigInt 7)]]
                         (Demo.num 0) None))
  = ([response_error_frame (Demo.num 3) "Do not know how to serialize a BigInt"],
     Normal ()).
Proof.
  refine (proj2 (bigint_cell_is_answered_error (Demo.num 3)
            (mkResultSet ["n"] ["INTEGER"] [[("0", JBigInt 7); ("n", JBigInt 7)]]
                         (Demo.num 0) None) _)).
  reflexivity.
Defined.

(** X6: whatever the engine answers an execute with, the handler sends
    exactly one frame, of type response_ok or response_error, carrying
    the request id it was given, and its promise is fulfilled. *)
Theorem execute_answer_echoes_request_id (requestId : number)
    (outcome : completion ResultSet) :
  exists frame,
    executeSettled requestId outcome = ([frame], Normal ())
    /\ field frame "request_id" = Some (json_of_number requestId)
    /\ (field frame "type" = Some (JsonStr "response_ok")
        \/ field frame "type" = Some (JsonStr "response_error")).
Proof.
  unfold executeSettled.
  destruct outcome as [r|e]; cbn [mbind completion_bind].
  - rewrite Serializer.prepareResult_frame.
    destruct (serialize_elems (socket_rows r)) as [js|e]; cbn [mbind completion_bind].
    + eexists. split; [done|]. split; [done|]. by left.
    + eexists. split; [done|]. split; [done|]. by right.
  - eexists. split; [done|]. split; [done|]. by right.
Qed.

End FrameFacts.

(* ===================================================================== *)
(** * More on the connection as written                                    *)
(* ===================================================================== *)

Module ConnectionFacts.
Import Js Libsql Connection Spec Notions Handlers Dispatch.
Local Open Scope list_scope.

Section Facts.
Context {DB : Type} (db : Client DB) (token : string).
Implicit Types (w : World DB) (ev : Event) (es : list Event).

Abbreviation run := (run db token).
Abbreviation fire := (fire db token).

Lemma run_snoc es ev w : run (es ++ [ev]) w = fire ev (run es w).
Proof. by rewrite (run_app db token). Qed.

Lemma reached_quiet es (st0 : DB) : quiet (run es (init st0)).
Proof. apply run_quiet, init_quiet. Qed.





Lemma fire_db ev w :
  quiet w ->
  w_db (fire ev w)
  = match statement_of ev with
    | Some s => (execute db (w_db w) s).1
    | None => w_db w
    end.
Proof.
  intros Hq. destruct ev as [[jwt|requestId [sid body|sid|sid]]|]; simpl.
  - by rewrite push_immediate.
  - by rewrite push_request_execute.
  - by rewrite push_immediate.
  - by rewrite push_immediate.
  - by destruct (tick_spec db token w Hq) as (_ & _ & _ & _ & -> & _).
Qed.

(** X8: the engine is handed the statements of the execute requests in
    the order the requests arrive, each as soon as it arrives: the
    database state after a schedule is the one reached by executing them
    in arrival order, however long each call takes to settle. *)
Theorem statements_run_in_arrival_order es (st0 : DB) :
  w_db (run es (init st0))
  = foldl (fun st s => (execute db st s).1) st0 (statements es).
Proof.
  induction es as [|ev es IH] using rev_ind; [done|].
  rewrite run_snoc, fire_db by apply reached_quiet.
  unfold statements. rewrite omap_app, foldl_app. fold (statements es).
  rewrite <- IH. simpl. by destruct (statement_of ev).
Qed.

Lemma fire_restream (f : number -> number) ev w :
  quiet w -> fire (restream f ev) w = fire ev w.
Proof.
  intros Hq. destruct ev as [[jwt|requestId [sid body|sid|sid]]|]; simpl; try done.
  - by rewrite !push_request_execute.
  - by rewrite !push_immediate.
  - by rewrite !push_immediate.
Qed.

(** X9: stream ids are never consulted: rewriting the stream ids of a
    schedule in any way leaves everything the connection does unchanged
    (frames, engine calls, database), so an execute is served on a stream
    that was never opened or was already closed. *)
Theorem stream_ids_are_ignored (f : number -> number) es (st0 : DB) :
  run (map (restream f) es) (init st0) = run es (init st0).
Proof.
  induction es as [|ev es IH] using rev_ind; [done|].
  rewrite map_app. simpl. rewrite !run_snoc, IH.
  apply fire_restream, reached_quiet.
Qed.

(** X10: a close_stream request is a no-op on the wire and for the
    engine: no frame is sent, the database and the calls in flight stay
    as they are. *)
Theorem close_stream_is_silent es (st0 : DB) (requestId sid : number) :
  let w := run es (init st0) in
  let w' := fire (Arrives (RequestMsg requestId (CloseStreamBody sid))) w in
  w_sent w' = w_sent w /\ w_db w' = w_db w /\ w_calls w' = w_calls w.
Proof.
  intros w w'. unfold w'. simpl.
  rewrite push_immediate by first [apply reached_quiet | done]. simpl.
  by rewrite app_nil_r.
Qed.



End Facts.


End ConnectionFacts.

(* ===================================================================== *)
(** * More on the HTTP endpoint                                            *)
(* ===================================================================== *)

Module EndpointFacts.
Import Js Libsql Studio Spec Notions JsonFacts.
Local Open Scope list_scope.

Lemma serialize_object (o : props) :
  serialize (JObj o) = j ← JSON_stringify (JObj o); Normal (Some j).
Proof.
  unfold JSON_stringify. rewrite serialize_obj.
  by destruct (serialize_fields o).
Qed.

Lemma serialize_result (r : Result) (d : json) :
  res_json (js_result r) = Normal d -> serialize (js_result r) = Normal (Some d).
Proof.
  unfold res_json, js_result. intros Hd. by rewrite serialize_object, Hd.
Qed.

Lemma serialize_results (rs : list ResultSet) (ds : list json) :
  Forall2 (fun r d => res_json (js_result (transformRawResult r)) = Normal d) rs ds ->
  serialize_elems (map (fun x => js_result (transformRawResult x)) rs) = Normal ds.
Proof.
  induction 1 as [|r d rs ds Hd _ IH]; [done|].
  cbn [map serialize_elems]. rewrite (serialize_result _ d Hd).
  cbn [mbind completion_bind]. by rewrite IH.
Qed.

(** X12: when the engine executes the statement of a query and the
    result serializes, the endpoint leaves the database as the engine
    left it and answers [{type: "query", id, data}] with the request's
    id and the transformed result. *)
Theorem query_success_envelope {DB} (db : Client DB) (st st' : DB)
    (id : number) (statement : string) (r : ResultSet) (d : json) :
  execute db st (StmtText statement) = (st', Normal r) ->
  res_json (js_result (transformRawResult r)) = Normal d ->
  serve_post_query db st (QueryBody id statement)
  = (st', Normal (success_envelope (QueryBody id statement) d)).
Proof.
  intros Hexec Hd. unfold serve_post_query. rewrite Hexec.
  cbn [mbind completion_bind]. unfold res_json at 1, JSON_stringify.
  rewrite serialize_obj. cbn [serialize_fields].
  rewrite serialize_str, serialize_num, (serialize_result _ d Hd).
  reflexivity.
Qed.

Lemma query_success_envelope_witness :
  exists d,
    serve_post_query Demo.client 0 (QueryBody (Demo.num 1) "SELECT 1 AS x")
    = (0, Normal (success_envelope (QueryBody (Demo.num 1) "SELECT 1 AS x") d))
    /\ path d ["headers"] = Some (JsonArr [wire_header
          (mkHeader "x" "x" (Some "") TEXT)]).
Proof.
  eexists. split.
  - apply (query_success_envelope Demo.client 0 0 (Demo.num 1) "SELECT 1 AS x"
             Demo.one_x); [reflexivity | by vm_compute].
  - by vm_compute.
Defined.

(** X13: when the engine runs the statements of a transaction as one
    batch and every result serializes, the endpoint answers
    [{type: "transaction", id, data}] where [data] lists the transformed
    results in the order of the statements. *)
Theorem transaction_success_envelope {DB} (db : Client DB) (st st' : DB)
    (id : number) (statements : list string) (rs : list ResultSet)
    (ds : list json) :
  batch db st (map StmtText statements) = (st', Normal rs) ->
  Forall2 (fun r d => res_json (js_result (transformRawResult r)) = Normal d) rs ds ->
  serve_post_query db st (TransactionBody id statements)
  = (st', Normal (success_envelope (TransactionBody id statements) (JsonArr ds))).
Proof.
  intros Hbatch Hds. unfold serve_post_query. rewrite Hbatch.
  cbn [mbind completion_bind]. unfold res_json at 1, JSON_stringify.
  rewrite serialize_obj. cbn [serialize_fields].
  rewrite serialize_str, serialize_num, serialize_arr, (serialize_results _ ds Hds).
  reflexivity.
Qed.

Lemma transaction_success_envelope_witness :
  exists d1 d2,
    serve_post_query Demo.client 0
      (TransactionBody (Demo.num 2) ["INSERT INTO t VALUES (?)"; "SELECT 1 AS x"])
    = (1, Normal (success_envelope
                    (TransactionBody (Demo.num 2)
                       ["INSERT INTO t VALUES (?)"; "SELECT 1 AS x"])
                    (JsonArr [d1; d2]))).
Proof.
  eexists _, _.
  apply (transaction_success_envelope Demo.client 0 1 (Demo.num 2)
           ["INSERT INTO t VALUES (?)"; "SELECT 1 AS x"]
           [Demo.inserted 1; Demo.one_x]); [reflexivity|].
  repeat constructor; by vm_compute.
Defined.

(** X14: whenever the engine call of a request throws an error that has
    no [data] property, for a query as for a transaction, the callback
    rejects with a TypeError from inside its [catch] block and no answer
    is sent; the database is left as the engine left it. *)
Theorem failure_without_data_sends_nothing {DB} (db : Client DB) (st st' : DB)
    (body : Body) (e : JsError) :
  engine_throws db st body st' e ->
  err_get e "data" = JUndefined ->
  serve_post_query db st body
  = (st', Throw (TypeError "Cannot read properties of undefined (reading 'type')")).
Proof.
  intros Hthrows Hdata. unfold serve_post_query.
  destruct body as [id statement|id statements]; simpl in Hthrows;
    rewrite Hthrows; cbn [mbind completion_bind]; by rewrite Hdata.
Qed.

Lemma failure_without_data_sends_nothing_witness :
  serve_post_query Demo.client 3
    (TransactionBody (Demo.num 2) ["INSERT INTO t VALUES (?)"; "DROP"])
  = (3, Throw (TypeError "Cannot read properties of undefined (reading 'type')")).
Proof.
  apply (failure_without_data_sends_nothing Demo.client 3 3
           (TransactionBody (Demo.num 2) ["INSERT INTO t VALUES (?)"; "DROP"])
           Demo.syntax_error); reflexivity.
Defined.

(** X15: when the thrown error does carry a [data] object, the failure
    envelope takes [type] and [id] from that object and [error] from the
    error's message; the request's own type and id play no part. *)
Theorem failure_envelope_reads_error_data {DB} (db : Client DB) (st st' : DB)
    (body : Body) (e : JsError) (o : props) (ty : string) (n : number) :
  engine_throws db st body st' e ->
  err_get e "data" = JObj o ->
  lookup_prop o "type" = JStr ty ->
  lookup_prop o "id" = JNum n ->
  serve_post_query db st body
  = (st', Normal (JsonObj [("type", JsonStr ty);
                           ("id", json_of_number n);
                           ("error", JsonStr (err_message e))])).
Proof.
  intros Hthrows Hdata Hty Hid. unfold serve_post_query.
  destruct body as [id statement|id statements]; simpl in Hthrows;
    rewrite Hthrows; cbn [mbind completion_bind]; rewrite Hdata; simpl;
    by rewrite Hty, Hid.
Qed.

Lemma failure_envelope_reads_error_data_witness :
  serve_post_query
    (mkClient (fun (st : nat) _ =>
                 (st, Throw (mkError "Error" "boom" "Error: boom"
                               [("data", JObj [("type", JStr "transaction");
                                               ("id", JNum (Demo.num 99))])])))
              (fun st _ => (st, Normal []))
              (fun _ _ => 0))
    0 (QueryBody (Demo.num 1) "SELECT 1")
  = (0, Normal (JsonObj [("type", JsonStr "transaction");
                         ("id", json_of_number (Demo.num 99));
                         ("error", JsonStr "boom")])).
Proof.
  apply (failure_envelope_reads_error_data _ 0 0 (QueryBody (Demo.num 1) "SELECT 1")
           (mkError "Error" "boom" "Error: boom"
              [("data", JObj [("type", JStr "transaction");
                              ("id", JNum (Demo.num 99))])])
           [("type", JStr "transaction"); ("id", JNum (Demo.num 99))]
           "transaction" (Demo.num 99)); reflexivity.
Defined.

End EndpointFacts.

(* ===================================================================== *)
(** * Start-up: the port and the token                                     *)
(* ===================================================================== *)

Module LaunchFacts.
Import Launch.
Local Open Scope list_scope.

Lemma findPort_spec (probe : nat -> Probe) (n port p : nat) :
  (findPort probe n port).2 = Some p
  <-> port <= p <= port + n
      /\ (forall q, port <= q < p -> probe q = InUse)
      /\ (p < port + n -> probe p = Listening).
Proof.
  revert port. induction n as [|n IH]; intros port; simpl.
  - split.
    + intros [= <-]. repeat split; intros; lia.
    + intros ([??] & _ & _). f_equal. lia.
  - destruct (probe port) eqn:Hport; simpl.
    + destruct (findPort probe n (port + 1)) as [lines r] eqn:Hrec. simpl.
      specialize (IH (port + 1)). rewrite Hrec in IH. simpl in IH. rewrite IH.
      split.
      * intros ([??] & Hused & Hfree). split; [lia|]. split.
        -- intros q Hq. destruct (decide (q = port)) as [->|]; [done|].
           apply Hused. lia.
        -- intros Hp. apply Hfree. lia.
      * intros ([??] & Hused & Hfree).
        assert (p ≠ port) as Hne.
        { intros ->. rewrite Hfree in Hport by lia. done. }
        split; [lia|]. split.
        -- intros q Hq. apply Hused. lia.
        -- intros Hp. apply Hfree. lia.
    + split.
      * intros [= <-]. split; [lia|]. split; [intros; lia | done].
      * intros ([??] & Hused & _). f_equal.
        destruct (decide (p = port)) as [->|]; [done|].
        rewrite Hused in Hport by lia. done.
    + split; [done|]. intros ([??] & Hused & Hfree).
      destruct (decide (p = port)) as [->|].
      * rewrite Hfree in Hport by lia. done.
      * rewrite Hused in Hport by lia. done.
Qed.

Lemma findPort_lines (probe : nat -> Probe) (n port p : nat) (lines : list string) :
  findPort probe n port = (lines, Some p) -> length lines = p - port.
Proof.
  revert port lines. induction n as [|n IH]; intros port lines; simpl.
  - intros [= <- <-]. simpl. lia.
  - destruct (probe port); simpl.
    + destruct (findPort probe n (port + 1)) as [lines' r] eqn:Hrec.
      intros [= <- ->]. simpl. rewrite (IH _ _ Hrec).
      assert ((findPort probe n (port + 1)).2 = Some p) as Hp by (by rewrite Hrec).
      apply findPort_spec in Hp. lia.
    + intros [= <- <-]. simpl. lia.
    + done.
Qed.

(** X16: the port the socket server listens on.  The loop ends on port
    [p] exactly when [p] lies between 4000 and 4010, every port from 4000
    up to [p] was found in use, and [p] was found free, unless [p] is
    4010, which is taken without being probed.  One line is logged per
    port found in use.  (When a probe fails otherwise than by
    [EADDRINUSE] the loop never ends.) *)
Theorem choosePort_spec (probe : nat -> Probe) :
  (forall p,
      (choosePort probe).2 = Some p
      <-> 4000 <= p <= 4010
          /\ (forall q, 4000 <= q < p -> probe q = InUse)
          /\ (p < 4010 -> probe p = Listening))
  /\ (forall lines p,
        choosePort probe = (lines, Some p) -> length lines = p - 4000)
  /\ ((choosePort probe).2 = None
      <-> exists q, 4000 <= q < 4010 /\ probe q = OtherError
                    /\ forall q', 4000 <= q' < q -> probe q' = InUse).
Proof.
  split; [intros p; apply (findPort_spec probe 10 4000 p)|].
  split; [intros lines p; apply findPort_lines|].
  unfold choosePort.
  assert (forall n port,
            (findPort probe n port).2 = None
            <-> exists q, port <= q < port + n /\ probe q = OtherError
                          /\ forall q', port <= q' < q -> probe q' = InUse) as H.
  { induction n as [|n IH]; intros port; simpl.
    - split; [done | intros (q & ? & _); lia].
    - destruct (probe port) eqn:Hport; simpl.
      + destruct (findPort probe n (port + 1)) as [lines r] eqn:Hrec. simpl.
        specialize (IH (port + 1)). rewrite Hrec in IH. simpl in IH. rewrite IH.
        split; intros (q & Hq & Herr & Hused); exists q.
        * split; [lia|]. split; [done|]. intros q' Hq'.
          destruct (decide (q' = port)) as [->|]; [done|]. apply Hused. lia.
        * assert (q ≠ port) by (intros ->; congruence).
          split; [lia|]. split; [done|]. intros q' Hq'. apply Hused. lia.
      + split; [done|]. intros (q & Hq & Herr & Hused).
        destruct (decide (q = port)) as [->|]; [congruence|].
        rewrite Hused in Hport by lia. done.
      + split; [|done]. intros _. exists port.
        split; [lia|]. split; [done|]. intros; lia. }
  apply (H 10 4000).
Qed.

(** *** The token *)

Lemma hex_byte_roundtrip (b : Byte.byte) :
  unhex_digit (hex_digit (Byte.to_N b / 16)) = Some (Byte.to_N b / 16)%N
  /\ unhex_digit (hex_digit (Byte.to_N b mod 16)) = Some (Byte.to_N b mod 16)%N
  /\ Byte.of_N (16 * (Byte.to_N b / 16) + Byte.to_N b mod 16) = Some b.
Proof. destruct b; by vm_compute. Qed.

(** X17: the token, [randomBytes(12).toString("hex")].  Whatever the
    bytes, the text has two characters per byte (24 for the 12 random
    bytes), all of them among 0-9 and a-f, and reading the digits back
    gives the bytes again: distinct byte strings give distinct tokens. *)
Theorem token_is_faithful_hex (bytes : list Byte.byte) :
  String.length (toString_hex bytes) = 2 * length bytes
  /\ forallb is_hex_char (list_ascii_of_string (toString_hex bytes)) = true
  /\ parse_hex (toString_hex bytes) = Some bytes.
Proof.
  induction bytes as [|b bytes (IHlen & IHhex & IHparse)]; [done|].
  destruct (hex_byte_roundtrip b) as (Hhi & Hlo & Hb).
  split; [simpl; rewrite IHlen; lia|]. split.
  - simpl. unfold is_hex_char at 1 2. by rewrite Hhi, Hlo, IHhex.
  - simpl. rewrite Hhi, Hlo. simpl. rewrite Hb. simpl. by rewrite IHparse.
Qed.

End LaunchFacts.

(* ===================================================================== *)
(** * The serving banner                                                   *)
(* ===================================================================== *)

Module BannerFacts.
Import Banner.
Local Open Scope list_scope.

Lemma scanInterfaces_find (interfaces : list (string * list Alias)) :
  scanInterfaces interfaces
  = address <$> List.find external_ipv4 (concat (map snd interfaces)).
Proof.
  induction interfaces as [|[devName iface] interfaces IH]; [done|].
  simpl. rewrite IH. clear IH.
  induction iface as [|alias iface IHi]; [done|].
  simpl. by destruct (external_ipv4 alias).
Qed.

(** X18: [getIPAddress] returns the address of the first entry, in the
    order of the interfaces and of their entries, that is IPv4, not
    internal and not 127.0.0.1, and 0.0.0.0 when there is none; it never
    returns 127.0.0.1. *)
Theorem getIPAddress_first_external (interfaces : list (string * list Alias)) :
  getIPAddress interfaces
  = match List.find external_ipv4 (concat (map snd interfaces)) with
    | Some alias => address alias
    | None => "0.0.0.0"
    end
  /\ getIPAddress interfaces ≠ "127.0.0.1".
Proof.
  unfold getIPAddress. rewrite scanInterfaces_find.
  destruct (List.find external_ipv4 _) as [alias|] eqn:Hfind; simpl.
  - split; [done|]. apply find_some in Hfind as [_ Hext].
    unfold external_ipv4 in Hext.
    apply andb_prop in Hext as [Hext _]. apply andb_prop in Hext as [_ Hne].
    apply negb_true_iff, bool_decide_eq_false in Hne. done.
  - done.
Qed.

Lemma maxOf_ge (ns : list nat) (n : nat) : n ∈ ns -> n <= maxOf ns.
Proof.
  induction ns as [|m ns IH]; [by intros ?%elem_of_nil|].
  intros [->|Hin]%elem_of_cons; simpl; [lia|]. specialize (IH Hin). lia.
Qed.

(** X19: the banner is a rectangle: nine lines are printed (top border,
    two blank lines, the three lines of text, two blank lines, bottom
    border) and each is ten characters wider than the longest line of
    text, whatever the port and the address. *)
Theorem banner_is_a_rectangle (port : nat)
    (interfaces : list (string * list Alias)) :
  length (printServingMessage port interfaces) = 9
  /\ Forall (fun line =>
               length line
               = maxOf (map length (banner_text port (getIPAddress interfaces))) + 10)
            (printServingMessage port interfaces).
Proof.
  split; [done|].
  unfold printServingMessage.
  set (txt := banner_text port (getIPAddress interfaces)).
  set (m := maxOf (map length txt)).
  assert (forall line, line ∈ txt -> length line <= m) as Hle.
  { intros line Hin. apply maxOf_ge. change map with (@fmap list _).
    apply list_elem_of_fmap. by exists line. }
  clearbody m txt. unfold fill, substring_from, substring_to.
  repeat (apply Forall_app; split).
  - repeat constructor.
    rewrite !length_app, length_drop, length_replicate. cbn [length]. lia.
  - apply Forall_replicate.
    rewrite !length_app, length_drop, length_replicate. cbn [length]. lia.
  - apply Forall_forall. intros l Hl. change map with (@fmap list _) in Hl.
    apply list_elem_of_fmap in Hl as (line & -> & Hin).
    specialize (Hle line Hin).
    rewrite !length_app, !length_take, length_replicate. cbn [length]. lia.
  - apply Forall_replicate.
    rewrite !length_app, length_drop, length_replicate. cbn [length]. lia.
  - repeat constructor.
    rewrite !length_app, length_drop, length_replicate. cbn [length]. lia.
Qed.

End BannerFacts.
